(** * Distance-vector routing simulator (DVA.py)

    A shallow embedding of the routing core of [DVA.py]: the graph of
    [Node]s and [Edge]s, table initialisation, advertisement, the relaxation
    step [updateDV], the two convergence loops and the link mutator.

    Modelling choices, all read off the source:
    - costs are Python floats, i.e. IEEE 754 binary64 numbers: Rocq's
      primitive floats.  The integer [0] that [calculate_cost] returns is the
      float [0]; the two compare and add alike;
    - a [dict] is an insertion-ordered association list ([Dict]): assigning
      to a present key keeps its position, a new key goes to the end;
    - the graph is the dict [name -> Node], again in insertion order, since
      the order of [graph.keys()] fixes the order of rows, sends and updates;
    - sockets and listener threads are not modelled: a send appends the
      sender's table to the receiver's mailbox [updatedInit] before the
      sender goes on, unless the payload does not survive the listener's
      [recv(1024)] and [json.loads] (the parameter [payload_fits]);
    - console and GUI output of the controllers and of the link mutator is
      a trace of [event]s; [input()] reads from a list of lines;
    - uncaught exceptions and [os._exit] are outcomes of a computation. *)

From Stdlib Require Import List String Ascii Bool Arith ZArith PArith Lia.
From Stdlib Require Import Floats SpecFloat.
Import ListNotations.

Local Open Scope string_scope.
Local Open Scope list_scope.

(** ** Costs *)

Definition cost : Type := float.

(** [0] and [np.inf]. *)
Definition cost_zero : cost := 0%float.
Definition cost_inf : cost := infinity.

(** Python's [x != y] on numbers. *)
Definition cost_neqb (x y : cost) : bool := negb (x =? y)%float.

(** [x] is not below zero ([x < 0] is false). *)
Definition nonneg (x : cost) : Prop := (x <? cost_zero)%float = false.

(** Less than, or equal: the order in which relaxation moves a cost. *)
Definition cost_le (x y : cost) : Prop := x = y \/ (x <? y)%float = true.

(** ** Node names *)

Definition node_name : Type := string.

(** ** Python dictionaries from destination to cost *)

Module Dict.

Definition t : Type := list (node_name * cost).

Definition empty : t := [].

(** [d.get(k)]: the value under [k], if any. *)
Fixpoint get (k : node_name) (d : t) : option cost :=
  match d with
  | [] => None
  | (k', v) :: rest => if k' =? k then Some v else get k rest
  end.

(** [k in d]. *)
Definition mem (k : node_name) (d : t) : bool :=
  match get k d with Some _ => true | None => false end.

(** [d[k] = v]: overwrite in place, or append a new key. *)
Fixpoint set (k : node_name) (v : cost) (d : t) : t :=
  match d with
  | [] => [(k, v)]
  | (k', v') :: rest =>
      if k' =? k then (k', v) :: rest else (k', v') :: set k v rest
  end.

Definition keys (d : t) : list node_name := map fst d.

End Dict.

(** ** Data model *)

(** A row [[src, dst, cost]] of a routing table. *)
Definition row : Type := (node_name * node_name * cost)%type.
Definition table : Type := list row.

Definition row_src (r : row) : node_name := fst (fst r).
Definition row_dst (r : row) : node_name := snd (fst r).
Definition row_cost (r : row) : cost := snd r.

(** [Edge]: the two ends are [Node] objects in the source and are named
    here; [calculate_cost] reads [edge.destination.name] only. *)
Record Edge : Type := mkEdge
  { source : node_name;
    destination : node_name;
    weight : cost }.

(** [Node]: the fields the routing core reads or writes.  The port, the
    host name, the shutdown flag and the thread handle belong to the socket
    layer. *)
Record Node : Type := mkNode
  { name : node_name;
    edges : list Edge;
    initTable : table;
    updatedInit : list table }.

(** The dict [graph]: node name to [Node], in insertion order. *)
Definition graph : Type := list (node_name * Node).

Definition graph_keys (g : graph) : list node_name := map fst g.

(** [graph[k]], when [k in graph]. *)
Fixpoint graph_get (k : node_name) (g : graph) : option Node :=
  match g with
  | [] => None
  | (k', n) :: rest => if k' =? k then Some n else graph_get k rest
  end.

Definition graph_mem (k : node_name) (g : graph) : bool :=
  match graph_get k g with Some _ => true | None => false end.

(** A field update on the object [graph[k]]; nothing to update when [k] is
    no key (the source only ever does this for a key). *)
Fixpoint graph_update (k : node_name) (f : Node -> Node) (g : graph) : graph :=
  match g with
  | [] => []
  | (k', n) :: rest =>
      if k' =? k then (k', f n) :: rest else (k', n) :: graph_update k f rest
  end.

Definition set_initTable (t : table) (n : Node) : Node :=
  mkNode (name n) (edges n) t (updatedInit n).

Definition set_updatedInit (m : list table) (n : Node) : Node :=
  mkNode (name n) (edges n) (initTable n) m.

(** ** Distance-vector engine *)

(** [calculate_cost] (lines 144-151). *)
Definition calculate_cost (g : graph) (source_node_name dest_node_name : node_name)
  : cost :=
  if source_node_name =? dest_node_name then cost_zero
  else
    match graph_get source_node_name g with
    | Some n =>
        match find (fun edge => destination edge =? dest_node_name) (edges n) with
        | Some edge => weight edge
        | None => cost_inf
        end
    | None => cost_inf
    end.

(** [initDVtable] (lines 165-171): for every key, one appended row per key.
    The test [index < len(keys)] of line 167 holds for every index that
    [enumerate] yields. *)
Definition init_row (source_node : node_name) (g : graph) (dest_node : node_name)
  : graph :=
  let cost := calculate_cost g source_node dest_node in
  graph_update source_node
    (fun n => set_initTable (initTable n ++ [(source_node, dest_node, cost)]) n) g.

Definition initDVtable (g : graph) : graph :=
  let keys := graph_keys g in
  fold_left (fun g values => fold_left (init_row values) keys g) keys g.

(** ** Exceptions inside the relaxation step *)

Inductive exn : Type :=
| KeyError (key : string)
| EOFError.

Inductive res (A : Type) : Type :=
| Done (a : A)
| Fail (e : exn).

Arguments Done {A} a.
Arguments Fail {A} e.

Definition res_bind {A B : Type} (m : res A) (k : A -> res B) : res B :=
  match m with
  | Done a => k a
  | Fail e => Fail e
  end.

Notation "'let?' x := m 'in' k" := (res_bind m (fun x => k))
  (at level 10, x pattern, m at level 100, k at level 200).

(** The subscript [d[k]], which raises [KeyError] on a missing key. *)
Definition getitem (d : Dict.t) (k : node_name) : res cost :=
  match Dict.get k d with
  | Some v => Done v
  | None => Fail (KeyError k)
  end.

(** [{dst: cost for _, dst, cost in own_dv_table}] (line 231): one
    assignment [d[dst] = cost] per row, in the order of the rows. *)
Definition set_row (d : Dict.t) (r : row) : Dict.t :=
  Dict.set (row_dst r) (row_cost r) d.

Definition dict_of_table (t : table) : Dict.t :=
  fold_left set_row t Dict.empty.

(** The item [(dst, cost)] of a row. *)
Definition row_entry (r : row) : node_name * cost := (row_dst r, row_cost r).

(** [[[node_id, dst, cost] for dst, cost in own_dv_dict.items()]] (line 248). *)
Definition table_of_dict (node_id : node_name) (d : Dict.t) : table :=
  map (fun kv => (node_id, fst kv, snd kv)) d.

(** The body of the inner loop of [updateDV] (lines 238-246) on one
    advertised row.  The state is the pair of [own_dv_dict] and [changed].
    The two prints of lines 243-244 leave no trace in the model, but the
    subscript [own_dv_dict[dst]] inside the second one is evaluated as the
    source evaluates it. *)
Definition relax_row (node_id : node_name) (st : Dict.t * bool) (r : row)
  : res (Dict.t * bool) :=
  let '(own_dv_dict, changed) := st in
  let '(src, dst, received_cost) := r in
  if negb (src =? node_id) then
    if Dict.mem src own_dv_dict then
      let? own_src := getitem own_dv_dict src in
      let src_to_dst_cost := (own_src + received_cost)%float in
      let? better :=
        (if negb (Dict.mem dst own_dv_dict) then Done true
         else let? own_dst := getitem own_dv_dict dst in
              Done (src_to_dst_cost <? own_dst)%float) in
      if (better : bool) then
        let? _old := getitem own_dv_dict dst in
        Done (Dict.set dst src_to_dst_cost own_dv_dict, true)
      else Done (own_dv_dict, changed)
    else Done (own_dv_dict, changed)
  else Done (own_dv_dict, changed).

(** [for src, dst, received_cost in received_table] (line 236). *)
Fixpoint relax_rows (node_id : node_name) (received_table : table)
  (st : Dict.t * bool) : res (Dict.t * bool) :=
  match received_table with
  | [] => Done st
  | r :: rest =>
      let? st' := relax_row node_id st r in relax_rows node_id rest st'
  end.

(** [for received_table in received_tables] (line 235). *)
Fixpoint relax_tables (node_id : node_name) (received_tables : list table)
  (st : Dict.t * bool) : res (Dict.t * bool) :=
  match received_tables with
  | [] => Done st
  | received_table :: rest =>
      let? st' := relax_rows node_id received_table st in
      relax_tables node_id rest st'
  end.

(** ** The world of a run: graph, standard input, output trace *)

(** What a run writes.  [Print] is a [print] of a fixed text (given up to
    trailing white space); the other prints are f-strings and carry the
    values they format: a table (lines 348-349, 373-374), an updated node
    (275, 315), an adjusted link (370-371), the closing line with the number
    of cycles (296, 331) and the elapsed time (332, whose value is not
    modelled).  [Prompt] is the text [input] shows, and [GuiUpdate] the pair
    of calls [updateRoutingTableForNode] and [show]. *)
Inductive event : Type :=
| Print (line : string)
| PrintTable (t : table)
| PrintUpdated (node : node_name) (t : table)
| PrintAdjusted (a b : node_name) (c : cost)
| PrintCycles (cycles : nat)
| PrintTotalTime
| Prompt (text : string)
| GuiUpdate (node : node_name) (t : table).

Record world : Type := mkWorld
  { w_graph : graph;
    w_stdin : list string;
    w_out : list event }.

Definition with_graph (g : graph) (w : world) : world :=
  mkWorld g (w_stdin w) (w_out w).

(** How a computation ends: with a value, with an uncaught exception, with
    the process gone ([os._exit]), or, for the loops, with the recursion
    budget of the model used up. *)
Inductive outcome (A : Type) : Type :=
| Ok (a : A) (w : world)
| Raised (e : exn) (w : world)
| Exited (status : Z) (w : world)
| OutOfFuel.

Arguments Ok {A} a w.
Arguments Raised {A} e w.
Arguments Exited {A} status w.
Arguments OutOfFuel {A}.

Definition M (A : Type) : Type := world -> outcome A.

Definition ret {A : Type} (a : A) : M A := fun w => Ok a w.

Definition bind {A B : Type} (m : M A) (k : A -> M B) : M B :=
  fun w =>
    match m w with
    | Ok a w' => k a w'
    | Raised e w' => Raised e w'
    | Exited s w' => Exited s w'
    | OutOfFuel => OutOfFuel
    end.

Notation "x <- m ;; k" := (bind m (fun x => k))
  (at level 61, m at next level, right associativity).
Notation "m ;; k" := (bind m (fun _ => k))
  (at level 61, right associativity).

Definition get_graph : M graph := fun w => Ok (w_graph w) w.

Definition modify_graph (f : graph -> graph) : M unit :=
  fun w => Ok tt (with_graph (f (w_graph w)) w).

(** [graph[k]] as an expression: [KeyError] when [k] is no key. *)
Definition graph_getitem (k : node_name) : M Node :=
  fun w =>
    match graph_get k (w_graph w) with
    | Some n => Ok n w
    | None => Raised (KeyError k) w
    end.

Definition emit (e : event) : M unit :=
  fun w => Ok tt (mkWorld (w_graph w) (w_stdin w) (w_out w ++ [e])).

(** [input(prompt)]: the prompt is written, one line is read; at the end of
    the input Python raises [EOFError]. *)
Definition input (prompt : string) : M string :=
  fun w =>
    let out := w_out w ++ [Prompt prompt] in
    match w_stdin w with
    | line :: rest => Ok line (mkWorld (w_graph w) rest out)
    | [] => Raised EOFError (mkWorld (w_graph w) [] out)
    end.

(** [os._exit(status)]: the process ends there. *)
Definition os_exit {A : Type} (status : Z) : M A :=
  fun w => Exited status w.

(** [str.upper] on ASCII letters; other bytes are kept, so the result is
    ["Y"] exactly for the inputs ["Y"] and ["y"], as in Python. *)
Definition upper_ascii (c : ascii) : ascii :=
  let n := nat_of_ascii c in
  if Nat.leb 97 n && Nat.leb n 122 then ascii_of_nat (n - 32) else c.

Fixpoint upper (s : string) : string :=
  match s with
  | EmptyString => EmptyString
  | String c rest => String (upper_ascii c) (upper rest)
  end.

Definition lift_res {A : Type} (r : res A) : M A :=
  fun w =>
    match r with
    | Done a => Ok a w
    | Fail e => Raised e w
    end.

(** [updateDV] (lines 229-251). *)
Definition updateDV (node_id : node_name) : M (table * bool) :=
  node <- graph_getitem node_id ;;
  let own_dv_table := initTable node in
  let own_dv_dict := dict_of_table own_dv_table in
  let received_tables := updatedInit node in
  st <- lift_res (relax_tables node_id received_tables (own_dv_dict, false)) ;;
  let updated_own_dv_table := table_of_dict node_id (fst st) in
  modify_graph (graph_update node_id (set_initTable updated_own_dv_table)) ;;
  ret (updated_own_dv_table, snd st).

(** ** Link mutator *)

(** One of the two [for i, (src, dest, cst) in enumerate(...)] loops of
    [DVAlgoLinkChange] (lines 352-359 and 361-368), over the rows that are
    left: the rewritten table, the flag [found], and what was printed. *)
Fixpoint adjust_rows (a b : node_name) (link_cost : cost) (found : bool)
  (rows : table) : table * bool * list event :=
  match rows with
  | [] => ([], found, [])
  | (src, dest, cst) :: rest =>
      if (src =? a) && (dest =? b) then
        ((src, dest, link_cost) :: rest, true, [])
      else
        let '(rest', found', printed) := adjust_rows a b link_cost found rest in
        ((src, dest, cst) :: rest', found',
         (if found then [] else [Print "Link not found"]) ++ printed)
  end.

Definition adjust_link (a b : node_name) (link_cost : cost) (found : bool)
  : M bool :=
  node <- graph_getitem a ;;
  let '(rows, found', printed) := adjust_rows a b link_cost found (initTable node) in
  modify_graph (graph_update a (set_initTable rows)) ;;
  (fun w => Ok tt (mkWorld (w_graph w) (w_stdin w) (w_out w ++ printed))) ;;
  ret found'.

Definition print_table_of (k : node_name) : M unit :=
  node <- graph_getitem k ;; emit (PrintTable (initTable node)).

(** [DVAlgoLinkChange] (lines 344-377).  [link_cost] is the number that
    [float(link_cost)] of line 344 yields.  The result is the returned
    value: [None], or the string ['Not Exist']. *)
Definition DVAlgoLinkChange (sourceid destid : node_name) (link_cost : cost)
  : M (option string) :=
  g <- get_graph ;;
  if graph_mem sourceid g && graph_mem destid g then
    emit (Print "Before Adjustment: ") ;;
    print_table_of sourceid ;;
    print_table_of destid ;;
    found <- adjust_link sourceid destid link_cost false ;;
    _found <- adjust_link destid sourceid link_cost found ;;
    emit (PrintAdjusted sourceid destid link_cost) ;;
    emit (PrintAdjusted destid sourceid link_cost) ;;
    emit (Print "After Adjustment: ") ;;
    print_table_of sourceid ;;
    print_table_of destid ;;
    ret None
  else
    emit (Print "One or both of the specified nodes do not exist.") ;;
    ret (Some "Not Exist").

(** ** Messaging fabric and convergence controller *)

Section Fabric.

(** Whether a payload reaches the mailbox: it is read with one
    [recv(1024)] and parsed; what does not parse is dropped. *)
Variable payload_fits : table -> bool.

(** [clientSide] on the sender, [serverSide] on the receiver: the table
    goes through JSON and is appended to the receiver's [updatedInit]. *)
Definition deliver (message : table) (dest_node : node_name) (g : graph)
  : graph :=
  if payload_fits message then
    graph_update dest_node
      (fun n => set_updatedInit (updatedInit n ++ [message]) n) g
  else g.

(** The body of the inner loop of [sendDVtoNeighbor] (lines 187-193). *)
Definition send_step (source_node : node_name) (g : graph)
  (dest_node : node_name) : graph :=
  if source_node =? dest_node then g
  else
    let c := calculate_cost g source_node dest_node in
    if cost_neqb c cost_inf && cost_neqb c cost_zero then
      match graph_get source_node g with
      | Some n => deliver (initTable n) dest_node g
      | None => g
      end
    else g.

(** [sendDVtoNeighbor] (lines 184-193). *)
Definition sendDVtoNeighbor (g : graph) : graph :=
  let keys := graph_keys g in
  fold_left (fun g source_node => fold_left (send_step source_node) keys g)
    keys g.

(** [for node in graph: ...] (lines 272-278 and 312-318; the same text in
    both controllers), threading the flag [stable]. *)
Fixpoint update_nodes (nodes : list node_name) (stable : bool) : M bool :=
  match nodes with
  | [] => ret stable
  | node :: rest =>
      r <- updateDV node ;;
      if (snd r : bool) then
        emit (PrintUpdated node (fst r)) ;;
        emit (GuiUpdate node (fst r)) ;;
        update_nodes rest false
      else update_nodes rest stable
  end.

(** One pass of the loop body up to the test [if stable] (lines 269-278
    and 309-318): broadcast, then update every node.  The value is
    [stable]. *)
Definition run_cycle : M bool :=
  modify_graph sendDVtoNeighbor ;;
  g <- get_graph ;;
  update_nodes (graph_keys g) true.

(** The [while] loop of [DVAlgorithmBreaks] (lines 268-294); the value is
    [cycles] when the loop is left. *)
Fixpoint breaks_loop (fuel max_cycles : nat) (stable : bool) (cycles : nat)
  : M nat :=
  if negb stable && Nat.ltb cycles max_cycles then
    match fuel with
    | O => fun _ => OutOfFuel
    | S fuel' =>
        let cycles := S cycles in
        stable <- run_cycle ;;
        if (stable : bool) then ret cycles
        else
          decision <- input "Continue to next cycle? (Y/N): " ;;
          (if negb (upper decision =? "Y") then
             emit (Print "User halted the algorithm.") ;;
             _ <- input "Press Enter to Exit..." ;;
             os_exit 1
           else ret tt) ;;
          if Nat.leb max_cycles cycles then
            emit (Print "Reached maxiumum cycles without becoming stable") ;;
            ret cycles
          else breaks_loop fuel' max_cycles stable cycles
    end
  else ret cycles.

(** [DVAlgorithmBreaks] (lines 264-296). *)
Definition DVAlgorithmBreaks : M unit :=
  g <- get_graph ;;
  let max_cycles := List.length g * 50 in
  cycles <- breaks_loop max_cycles max_cycles false 0 ;;
  emit (PrintCycles cycles).

(** The [while] loop of [DVAlgorithmNoBreaks] (lines 308-325). *)
Fixpoint nobreaks_loop (fuel max_cycles : nat) (stable : bool) (cycles : nat)
  : M nat :=
  if negb stable then
    match fuel with
    | O => fun _ => OutOfFuel
    | S fuel' =>
        let cycles := S cycles in
        stable <- run_cycle ;;
        if (stable : bool) then ret cycles
        else if Nat.leb max_cycles cycles then
          emit (Print "Reached maxiumum cycles without becoming stable") ;;
          ret cycles
        else nobreaks_loop fuel' max_cycles stable cycles
    end
  else ret cycles.

(** [DVAlgorithmNoBreaks] (lines 304-332); the two readings of the clock
    only feed the last print. *)
Definition DVAlgorithmNoBreaks : M unit :=
  g <- get_graph ;;
  let max_cycles := List.length g * 50 in
  cycles <- nobreaks_loop (S max_cycles) max_cycles false 0 ;;
  emit (PrintCycles cycles) ;;
  emit PrintTotalTime.

End Fabric.

(** ** Notions the properties are stated with *)

(** The test that guards a send in [sendDVtoNeighbor] (lines 187-190):
    [source_node] transmits its table to [dest_node]. *)
Definition transmits (g : graph) (source_node dest_node : node_name) : bool :=
  negb (source_node =? dest_node) &&
  (cost_neqb (calculate_cost g source_node dest_node) cost_inf &&
   cost_neqb (calculate_cost g source_node dest_node) cost_zero).

(** The cost a table holds for a destination, read as [updateDV] reads the
    table (through the dictionary of line 231). *)
Definition table_cost (t : table) (dst : node_name) : option cost :=
  Dict.get dst (dict_of_table t).

(** The cost of the entry [(src, dst)] of a table, found as
    [DVAlgoLinkChange] finds it: the first row with these two names. *)
Definition entry (t : table) (src dst : node_name) : option cost :=
  match find (fun r => (row_src r =? src) && (row_dst r =? dst)) t with
  | Some r => Some (row_cost r)
  | None => None
  end.

(** The tables of a graph, by node. *)
Definition tables (g : graph) : list (node_name * table) :=
  map (fun kn => (fst kn, initTable (snd kn))) g.

(** The shape every table has once [initDVtable] has run: the rows of node
    [k] carry [k] as their source, and no destination occurs twice. *)
Definition table_wf (k : node_name) (t : table) : Prop :=
  Forall (fun r => row_src r = k) t /\ NoDup (map row_dst t).

(** A graph as the program holds it: a dict has no key twice, and the tables
    have the shape above. *)
Definition graph_wf (g : graph) : Prop :=
  NoDup (graph_keys g) /\
  forall k n, graph_get k g = Some n -> table_wf k (initTable n).

(** A graph as [parse_input] hands it over: no table filled yet. *)
Definition fresh (g : graph) : Prop :=
  forall k n, graph_get k g = Some n -> initTable n = [].

(** The initial cost in the words of the specification (section 4.3):
    [0] to oneself, the weight of the direct edge if there is one, else
    infinity.  With several edges to one destination, "the" edge is the
    first of the edge list. *)
Definition spec_init_cost (n : Node) (src dst : node_name) : cost :=
  if src =? dst then cost_zero
  else
    match find (fun e => destination e =? dst) (edges n) with
    | Some e => weight e
    | None => cost_inf
    end.

(** The update rule in the words of the specification (section 4.3), on the
    pair of the mapping and the flag. *)
Definition spec_relax_row (st : Dict.t * bool) (r : row) : Dict.t * bool :=
  let '(advertiserId, dest, advertisedCost) := r in
  match Dict.get advertiserId (fst st) with
  | Some ownCost =>
      if is_finite ownCost then
        let candidate := (ownCost + advertisedCost)%float in
        match Dict.get dest (fst st) with
        | None => (Dict.set dest candidate (fst st), true)
        | Some known =>
            if (candidate <? known)%float
            then (Dict.set dest candidate (fst st), true)
            else st
        end
      else st
  | None => st
  end.

Definition spec_updateDV (node_id : node_name) (own : table)
  (received : list table) : table * bool :=
  let st := fold_left (fun st t => fold_left spec_relax_row t st) received
              (dict_of_table own, false) in
  (table_of_dict node_id (fst st), snd st).

(** The update rule as the code applies it to a destination it knows: rows
    advertised under the node's own name are skipped, and so are rows of an
    advertiser the table has no entry for or holds at infinity.  The second
    component counts the adopted candidates. *)
Definition relax_rule (node_id : node_name) (st : Dict.t * nat) (r : row)
  : Dict.t * nat :=
  let '(advertiserId, dest, advertisedCost) := r in
  if advertiserId =? node_id then st
  else
    match Dict.get advertiserId (fst st) with
    | None => st
    | Some ownCost =>
        if (ownCost =? cost_inf)%float then st
        else
          let candidate := (ownCost + advertisedCost)%float in
          match Dict.get dest (fst st) with
          | None => (Dict.set dest candidate (fst st), S (snd st))
          | Some known =>
              if (candidate <? known)%float
              then (Dict.set dest candidate (fst st), S (snd st))
              else st
          end
    end.

Definition relax_rule_all (node_id : node_name) (own : table)
  (received : list table) : Dict.t * nat :=
  fold_left (fun st t => fold_left (relax_rule node_id) t st) received
    (dict_of_table own, 0).

(** The mapping only moves down: every key of [d] stays in [d'], with a
    cost that is the old one or below it. *)
Definition dict_below (d' d : Dict.t) : Prop :=
  forall k c, Dict.get k d = Some c ->
    exists c', Dict.get k d' = Some c' /\ cost_le c' c.

(** Two graphs with the same keys and, node by node, the same edge lists. *)
Definition same_edges (g' g : graph) : Prop :=
  graph_keys g' = graph_keys g /\
  forall k, option_map edges (graph_get k g') = option_map edges (graph_get k g).

(** What one loop of [DVAlgoLinkChange] does to a row: it keeps it, or the
    row is an [(a, b)] row and gets the new cost. *)
Definition rewritten (a b : node_name) (c : cost) (r r' : row) : Prop :=
  r' = r \/ (row_src r = a /\ row_dst r = b /\ r' = (a, b, c)).

(** The node [graph[a]] after the loop that looks for the row [(a, b)]. *)
Definition adjust_node (a b : node_name) (c : cost) (n : Node) : Node :=
  set_initTable (fst (fst (adjust_rows a b c false (initTable n)))) n.

(** The graph after both loops of [DVAlgoLinkChange]. *)
Definition adjusted (a b : node_name) (c : cost) (g : graph) : graph :=
  graph_update b (adjust_node b a c) (graph_update a (adjust_node a b c) g).

(** A row of node [k] before and after [DVAlgoLinkChange a b c]: it is
    kept, or it is one of the two entries the call is about, the rows
    [(a, b)] of [a] and [(b, a)] of [b], and has the cost [c]. *)
Definition mutated (a b : node_name) (c : cost) (k : node_name) (r r' : row)
  : Prop :=
  r' = r \/
  (((k = a /\ row_src r = a /\ row_dst r = b) \/
    (k = b /\ row_src r = b /\ row_dst r = a)) /\
   r' = (row_src r, row_dst r, c)).

(** The nodes that transmit their table to [dest_node] in one broadcast, in
    the order of the sends. *)
Definition senders_to (g : graph) (dest_node : node_name) : list node_name :=
  filter (fun source_node => transmits g source_node dest_node) (graph_keys g).

(** Two graphs with the same keys and, node by node, the same edges and the
    same table: they differ in mailboxes at most. *)
Definition same_routes (g' g : graph) : Prop :=
  graph_keys g' = graph_keys g /\
  forall k,
    option_map (fun n => (edges n, initTable n)) (graph_get k g') =
    option_map (fun n => (edges n, initTable n)) (graph_get k g).

Section Adverts.

Variable payload_fits : table -> bool.

(** What one sender puts into a mailbox it transmits to: its table, if
    the payload arrives. *)
Definition advert (g : graph) (source_node : node_name) : list table :=
  match graph_get source_node g with
  | Some n => if payload_fits (initTable n) then [initTable n] else []
  | None => []
  end.

(** What one broadcast appends to the mailbox of [dest_node]. *)
Definition adverts (g : graph) (dest_node : node_name) : list table :=
  flat_map (advert g) (senders_to g dest_node).

End Adverts.


(** A computation ends within the recursion budget of the model. *)
Definition halts {A : Type} (o : outcome A) : Prop := o <> OutOfFuel.

(** ** Concrete graphs and runs *)

(** A fabric on which every payload arrives. *)
Definition all_fit (_ : table) : bool := true.

(** The topology of the worked example (section 8 of the specification),
    with the edges [(1,2,3)], [(2,3,1)] and [(1,3,10)], as [parse_input]
    builds it. *)
Definition ex_fresh : graph :=
  [ ("1", mkNode "1" [mkEdge "1" "2" 3%float; mkEdge "1" "3" 10%float] [] []);
    ("2", mkNode "2" [mkEdge "2" "1" 3%float; mkEdge "2" "3" 1%float] [] []);
    ("3", mkNode "3" [mkEdge "3" "2" 1%float; mkEdge "3" "1" 10%float] [] []) ].

(** The same after [initDVtable], and after the first broadcast. *)
Definition ex_init : graph := Eval vm_compute in initDVtable ex_fresh.
Definition ex_sent : graph := Eval vm_compute in sendDVtoNeighbor all_fit ex_init.

(** Node 1 with a row in its mailbox that is advertised under its own
    name. *)
Definition own_rows_node : Node :=
  mkNode "1" [mkEdge "1" "2" 5%float]
    [("1", "1", 0%float); ("1", "2", 5%float)]
    [[("1", "2", 1%float)]].

Definition own_rows_world : world := mkWorld [("1", own_rows_node)] [] [].

(** Node 1 with a row in its mailbox for a destination it does not hold. *)
Definition unknown_dest_node : Node :=
  mkNode "1" [mkEdge "1" "2" 5%float]
    [("1", "1", 0%float); ("1", "2", 5%float)]
    [[("2", "9", 1%float)]].

Definition unknown_dest_world : world :=
  mkWorld [("1", unknown_dest_node)] [] [].


(** Two nodes joined by an edge of weight [-1], after [initDVtable]: no
    round on this graph is stable. *)
Definition neg_fresh : graph :=
  [ ("1", mkNode "1" [mkEdge "1" "2" (-1)%float] [] []);
    ("2", mkNode "2" [mkEdge "2" "1" (-1)%float] [] []) ].

Definition neg_init : graph := Eval vm_compute in initDVtable neg_fresh.

(** The worked example run by hand: the world after the first round (nodes
    1 and 3 have changed), after the second round (stable), and after the
    link between 1 and 2 is then set to 100. *)
Definition world_of {A : Type} (o : outcome A) : world :=
  match o with
  | Ok _ w | Raised _ w | Exited _ w => w
  | OutOfFuel => mkWorld [] [] []
  end.

Definition ex_round1 : world :=
  Eval vm_compute in world_of (run_cycle all_fit (mkWorld ex_init [] [])).

Definition ex_round2 : world :=
  Eval vm_compute in world_of (run_cycle all_fit ex_round1).

Definition ex_mutated : world :=
  Eval vm_compute in world_of (DVAlgoLinkChange "1" "2" 100%float ex_round2).

(** The first round again, with a user who will answer [N]. *)
Definition ex_declining : world := mkWorld ex_init ["N"; ""] [].

Definition ex_declined : world :=
  Eval vm_compute in world_of (run_cycle all_fit ex_declining).

(** ** Notions for the further properties *)

(** The destinations a table has rows for. *)
Definition destinations (t : table) : list node_name := map row_dst t.

(** Some key of [d] holds a cost in [d'] that is strictly below the one it
    holds in [d]. *)
Definition dict_lowered (d' d : Dict.t) : Prop :=
  exists k c c',
    Dict.get k d = Some c /\ Dict.get k d' = Some c' /\ (c' <? c)%float = true.

(** Every table has one row per node of the graph, in the order of the
    keys. *)
Definition tables_complete (g : graph) : Prop :=
  forall k n, graph_get k g = Some n -> destinations (initTable n) = graph_keys g.

(** Every row in every mailbox is about a node of the graph. *)
Definition mailboxes_known (g : graph) : Prop :=
  forall k n, graph_get k g = Some n ->
    Forall (Forall (fun r => In (row_dst r) (graph_keys g))) (updatedInit n).

(** The state of a graph in a running program: well formed, with complete
    tables, and with mailboxes that only hold rows about its nodes. *)
Definition settled (g : graph) : Prop :=
  graph_wf g /\ tables_complete g /\ mailboxes_known g.

(** A graph as the loader leaves it: no key twice, empty tables and empty
    mailboxes. *)
Definition loaded (g : graph) : Prop :=
  NoDup (graph_keys g) /\
  forall k n, graph_get k g = Some n -> initTable n = [] /\ updatedInit n = [].



(** ** Further functions of [DVA.py] *)

(** [list.index(x)]: the position of the first occurrence of [x]; [None]
    stands for the [ValueError] that Python raises when there is none. *)
Fixpoint list_index (x : node_name) (l : list node_name) : option nat :=
  match l with
  | [] => None
  | y :: rest =>
      if y =? x then Some 0
      else match list_index x rest with
           | Some i => Some (S i)
           | None => None
           end
  end.

(** [getNodeOrder] (lines 385-388): the position of the node among the keys,
    counted from 1, or [None] when [index] raises [ValueError]. *)
Definition getNodeOrder (g : graph) (node_id : node_name) : option nat :=
  match list_index node_id (graph_keys g) with
  | Some i => Some (i + 1)
  | None => None
  end.

(** *** The loader [parse_input] (lines 112-141)

    The file is the list of its lines, or nothing when it cannot be opened.
    Characters are 8-bit, and white space is Python's white space among the
    ASCII characters (tab to carriage return, the four separators
    [\x1c]-[\x1f], and the space), so the model reads ASCII text as Python
    does.  [float] is a parameter of the loader: [None] stands for its
    [ValueError].  [Node] keeps no port (it belongs to the socket layer), so
    the ports that [Node(name, portNumber)] receives are kept beside the
    graph, with the counter [portNumber]. *)

Definition is_space (c : ascii) : bool :=
  let n := nat_of_ascii c in
  (Nat.leb 9 n && Nat.leb n 13) || (Nat.leb 28 n && Nat.leb n 32).

Fixpoint lstrip (s : string) : string :=
  match s with
  | EmptyString => EmptyString
  | String c rest => if is_space c then lstrip rest else s
  end.

Fixpoint rstrip (s : string) : string :=
  match s with
  | EmptyString => EmptyString
  | String c rest =>
      match rstrip rest with
      | EmptyString => if is_space c then EmptyString else String c EmptyString
      | kept => String c kept
      end
  end.

(** [str.strip()]. *)
Definition strip (s : string) : string := rstrip (lstrip s).

(** [str.split()]: the maximal runs of characters that are not white space;
    [word] is the run being read. *)
Fixpoint split_from (s : string) (word : string) : list string :=
  match s with
  | EmptyString =>
      match word with EmptyString => [] | _ => [word] end
  | String c rest =>
      if is_space c then
        match word with
        | EmptyString => split_from rest EmptyString
        | _ => word :: split_from rest EmptyString
        end
      else split_from rest (String.append word (String c EmptyString))
  end.

Definition split (s : string) : list string := split_from s EmptyString.

(** The exceptions that leave [parse_input]. *)
Inductive load_error : Type :=
| ValueError
| IOError.

(** The state of the loop: [graph], the ports given out, [portNumber]. *)
Record loading : Type := mkLoading
  { ld_graph : graph;
    ld_ports : list (node_name * Z);
    ld_port : Z }.

(** [Node(name, portNumber)] (lines 28-36), without the socket fields. *)
Definition new_node (nm : node_name) : Node := mkNode nm [] [] [].

(** [if name not in graph: graph[name] = Node(name, portNumber);
    portNumber += step] (lines 126-131). *)
Definition ensure_node (nm : node_name) (step : Z) (st : loading) : loading :=
  if graph_mem nm (ld_graph st) then st
  else
    mkLoading (ld_graph st ++ [(nm, new_node nm)])
      (ld_ports st ++ [(nm, ld_port st)])
      (ld_port st + step).

(** [graph[source_name].addEdge(graph[dest_name], weight)] (lines 38-40 and
    134-135): the edge names the two node objects.  Both keys are in the
    graph when the loader gets here. *)
Definition push_edge (e : Edge) (n : Node) : Node :=
  mkNode (name n) (edges n ++ [e]) (initTable n) (updatedInit n).

Definition addEdge (source_name dest_name : node_name) (weight : cost)
  (g : graph) : graph :=
  match graph_get dest_name g with
  | Some dest =>
      graph_update source_name
        (fun self => push_edge (mkEdge (name self) (name dest) weight) self) g
  | None => g
  end.

(** The body of the loop for a line of three words (lines 122-135), once
    the weight is a number. *)
Definition load_line (source_name dest_name : node_name) (weight : cost)
  (st : loading) : loading :=
  let st1 := ensure_node source_name 5 st in
  let st2 := ensure_node dest_name 10 st1 in
  let g1 := addEdge source_name dest_name weight (ld_graph st2) in
  let g2 := addEdge dest_name source_name weight g1 in
  mkLoading g2 (ld_ports st2) (ld_port st2).

Section Loader.

Variable float_of : string -> option cost.

(** [for line in f: ...] (lines 117-135). *)
Fixpoint load_lines (lines : list string) (st : loading)
  : load_error + loading :=
  match lines with
  | [] => inr st
  | line :: rest =>
      if strip line =? "End of Input" then inr st
      else
        match split (strip line) with
        | [source_name; dest_name; weight] =>
            match float_of weight with
            | None => inl ValueError
            | Some w =>
                load_lines rest (load_line source_name dest_name w st)
            end
        | _ => load_lines rest st
        end
  end.

(** [parse_input]: the graph, and beside it the ports. *)
Definition parse_input (file : option (list string)) : load_error + loading :=
  match file with
  | None => inl IOError
  | Some lines => load_lines lines (mkLoading [] [] 10)
  end.

End Loader.

(** The weights of the edges that node [a] has to node [b], in the order of
    its edge list. *)
Definition links (g : graph) (a b : node_name) : list cost :=
  match graph_get a g with
  | Some n => map weight (filter (fun e => destination e =? b) (edges n))
  | None => []
  end.

(** Every node carries its key as its name, and every edge in its list
    starts at it and ends at a node of the graph. *)
Definition edges_named (g : graph) : Prop :=
  forall k n, graph_get k g = Some n ->
    name n = k /\
    forall e, In e (edges n) ->
      source e = k /\ In (destination e) (graph_keys g).

(** Links are bidirectional: the edges from [a] to [b] and those from [b]
    to [a] carry the same weights in the same order. *)
Definition links_mirrored (g : graph) : Prop :=
  forall a b, links g a b = links g b a.

(** The ports given out: one per node, in the order of the keys, from 10
    upwards, below the counter, and no port twice. *)
Definition ports_given (st : loading) : Prop :=
  map fst (ld_ports st) = graph_keys (ld_graph st) /\
  (forall p, In p (map snd (ld_ports st)) -> (10 <= p < ld_port st)%Z) /\
  NoDup (map snd (ld_ports st)) /\
  (10 <= ld_port st)%Z.

(** What the loop of the loader keeps true. *)
Definition loader_inv (st : loading) : Prop :=
  loaded (ld_graph st) /\ edges_named (ld_graph st) /\
  links_mirrored (ld_graph st) /\ ports_given st.


(** The four lines of the worked example, and a [float] that reads their
    weights. *)
Definition newline : string := String (ascii_of_nat 10) EmptyString.

Definition ex_lines : list string :=
  [ String.append "1 2 3" newline; String.append "2 3 1" newline;
    String.append "1 3 10" newline; String.append "End of Input" newline ].

Definition ex_float (s : string) : option cost :=
  if s =? "1" then Some 1%float
  else if s =? "3" then Some 3%float
  else if s =? "10" then Some 10%float
  else None.

(** Graph [g'] has the keys of [g], and every node holds in [g'], for each
    destination it has a cost for in [g], a cost that is the same or
    below. *)
Definition costs_below (g' g : graph) : Prop :=
  graph_keys g' = graph_keys g /\
  forall k n, graph_get k g = Some n ->
    exists n', graph_get k g' = Some n' /\
      dict_below (dict_of_table (initTable n')) (dict_of_table (initTable n)).

(** A computation ends, in whichever way, on a graph that is below [g]. *)
Definition ends_below {A : Type} (g : graph) (o : outcome A) : Prop :=
  match o with
  | Ok _ w' => costs_below (w_graph w') g
  | Raised _ w' => costs_below (w_graph w') g
  | Exited _ w' => costs_below (w_graph w') g
  | OutOfFuel => False
  end.

(** * Properties *)

(** ** Facts on binary64 costs *)

Module CostFacts.


Lemma Prim2SF_inf : Prim2SF cost_inf = S754_infinity false.
Proof. reflexivity. Qed.





Lemma zero_nonneg : nonneg cost_zero.
Proof. reflexivity. Qed.

Lemma lex_lt (e1 e2 : Z) (m1 m2 : positive) :
  match (e1 ?= e2)%Z with
  | Eq => PosDef.Pos.compare_cont Eq m1 m2
  | Lt => Lt
  | Gt => Gt
  end = Lt <-> (e1 < e2 \/ (e1 = e2 /\ (m1 < m2)%positive))%Z.
Proof.
  change (PosDef.Pos.compare_cont Eq m1 m2) with (Pos.compare m1 m2).
  destruct (Z.compare_spec e1 e2) as [E | E | E].
  - rewrite Pos.compare_lt_iff. split; [intros H; right; split; assumption | ].
    intros [H | [_ H]]; [lia | assumption].
  - split; [intros _; left; assumption | reflexivity].
  - split; [discriminate | intros [H | [H _]]; lia].
Qed.

Lemma lex_gt (e1 e2 : Z) (m1 m2 : positive) :
  match (e1 ?= e2)%Z with
  | Eq => CompOpp (PosDef.Pos.compare_cont Eq m1 m2)
  | Lt => Gt
  | Gt => Lt
  end = Lt <-> (e2 < e1 \/ (e1 = e2 /\ (m2 < m1)%positive))%Z.
Proof.
  change (PosDef.Pos.compare_cont Eq m1 m2) with (Pos.compare m1 m2).
  destruct (Z.compare_spec e1 e2) as [E | E | E].
  - destruct (Pos.compare_spec m1 m2) as [F | F | F]; cbn;
      (split; [try discriminate; intros _ | try reflexivity; intros [H | [_ H]]]);
      try lia.
  - split; [discriminate | intros [H | [H _]]; lia].
  - split; [intros _; left; assumption | reflexivity].
Qed.

Lemma is_Lt_true (c : comparison) :
  match c with Lt => true | _ => false end = true <-> c = Lt.
Proof. destruct c; split; intros H; try reflexivity; discriminate. Qed.

Lemma SFltb_trans (x y z : spec_float) :
  SFltb x y = true -> SFltb y z = true -> SFltb x z = true.
Proof.
  unfold SFltb.
  destruct x as [sx | sx | | sx mx ex], y as [sy | sy | | sy my ey],
    z as [sz | sz | | sz mz ez];
    try destruct sx; try destruct sy; try destruct sz; cbn;
    try reflexivity; try discriminate.
  - rewrite !is_Lt_true, !lex_gt. lia.
  - rewrite !is_Lt_true, !lex_lt. lia.
Qed.

(** [<] on floats is transitive. *)
Lemma ltb_trans (x y z : cost) :
  (x <? y)%float = true -> (y <? z)%float = true -> (x <? z)%float = true.
Proof. rewrite !ltb_spec. apply SFltb_trans. Qed.

Lemma le_refl (x : cost) : cost_le x x.
Proof. left; reflexivity. Qed.

Lemma le_trans (x y z : cost) : cost_le x y -> cost_le y z -> cost_le x z.
Proof.
  intros [-> | Hxy] [-> | Hyz]; try (left; reflexivity); try (right; assumption).
  right. exact (ltb_trans _ _ _ Hxy Hyz).
Qed.

Lemma SFadd_inf (y : spec_float) :
  SF64add (S754_infinity false) y = S754_infinity false \/
  SF64add (S754_infinity false) y = S754_nan.
Proof. destruct y as [s | [|] | | s m e]; cbn; auto. Qed.

(** Infinity plus anything is below nothing. *)
Lemma inf_plus_never_below (c known : cost) :
  (cost_inf + c <? known)%float = false.
Proof.
  rewrite ltb_spec, add_spec, Prim2SF_inf.
  destruct (SFadd_inf (Prim2SF c)) as [E | E]; rewrite E;
    unfold SFltb; destruct (Prim2SF known) as [s | [|] | | [|] m e]; reflexivity.
Qed.

(** [x == inf] holds of infinity only. *)
Lemma eqb_inf (x : cost) : (x =? cost_inf)%float = true -> x = cost_inf.
Proof.
  rewrite eqb_spec, Prim2SF_inf. intros H.
  apply Prim2SF_inj. rewrite Prim2SF_inf.
  unfold SFeqb in H.
  destruct (Prim2SF x) as [s | [|] | | [|] m e]; cbn in H;
    try discriminate; reflexivity.
Qed.

End CostFacts.

(** ** Names *)

Lemma name_eqb_refl (k : node_name) : (k =? k) = true.
Proof. apply String.eqb_refl. Qed.

Lemma name_eqb_neq (k k' : node_name) : k <> k' -> (k =? k') = false.
Proof. intros H. apply String.eqb_neq. exact H. Qed.


(** ** Dictionaries *)

Module DictFacts.

Lemma get_set_same (k : node_name) (v : cost) (d : Dict.t) :
  Dict.get k (Dict.set k v d) = Some v.
Proof.
  induction d as [| [k' v'] d IH]; cbn.
  - rewrite name_eqb_refl. reflexivity.
  - destruct (String.eqb_spec k' k) as [E | E]; cbn.
    + rewrite (proj2 (String.eqb_eq k' k) E). reflexivity.
    + rewrite (name_eqb_neq _ _ E). exact IH.
Qed.

Lemma get_set_other (k k' : node_name) (v : cost) (d : Dict.t) :
  k <> k' -> Dict.get k' (Dict.set k v d) = Dict.get k' d.
Proof.
  intros N. induction d as [| [k0 v0] d IH]; cbn.
  - rewrite (name_eqb_neq _ _ N). reflexivity.
  - destruct (String.eqb_spec k0 k) as [E | E]; cbn.
    + subst k0. rewrite (name_eqb_neq _ _ N). reflexivity.
    + destruct (k0 =? k'); [reflexivity | exact IH].
Qed.

Lemma keys_set_present (k : node_name) (v : cost) (d : Dict.t) :
  Dict.mem k d = true -> Dict.keys (Dict.set k v d) = Dict.keys d.
Proof.
  unfold Dict.mem, Dict.keys.
  induction d as [| [k0 v0] d IH]; cbn; [discriminate | ].
  destruct (k0 =? k); cbn; [reflexivity | ].
  intros H. rewrite (IH H). reflexivity.
Qed.

Lemma mem_in_keys (k : node_name) (d : Dict.t) :
  Dict.mem k d = true <-> In k (Dict.keys d).
Proof.
  unfold Dict.mem, Dict.keys.
  induction d as [| [k0 v0] d IH]; cbn.
  - split; [discriminate | contradiction].
  - destruct (String.eqb_spec k0 k) as [E | E].
    + split; [intros _; left; exact E | reflexivity].
    + rewrite IH. split; [intros H; right; exact H | intros [H | H]; [contradiction | exact H]].
Qed.

Lemma get_none_not_in (k : node_name) (d : Dict.t) :
  Dict.get k d = None <-> ~ In k (Dict.keys d).
Proof.
  rewrite <- mem_in_keys. unfold Dict.mem.
  destruct (Dict.get k d); split; intros H; try reflexivity;
    try discriminate; try (intros F; discriminate F).
  exfalso. apply H. reflexivity.
Qed.

Lemma mem_set_present (k k' : node_name) (v : cost) (d : Dict.t) :
  Dict.mem k d = true -> Dict.mem k' (Dict.set k v d) = Dict.mem k' d.
Proof.
  intros H. destruct (Dict.mem k' d) eqn:E.
  - apply mem_in_keys. rewrite keys_set_present by exact H.
    apply mem_in_keys. exact E.
  - destruct (Dict.mem k' (Dict.set k v d)) eqn:F; [ | reflexivity].
    apply mem_in_keys in F. rewrite keys_set_present in F by exact H.
    apply mem_in_keys in F. congruence.
Qed.

Lemma set_absent (k : node_name) (v : cost) (d : Dict.t) :
  ~ In k (Dict.keys d) -> Dict.set k v d = d ++ [(k, v)].
Proof.
  unfold Dict.keys. induction d as [| [k0 v0] d IH]; cbn; [reflexivity | ].
  intros H. destruct (String.eqb_spec k0 k) as [E | E].
  - exfalso. apply H. left. exact E.
  - rewrite IH; [reflexivity | ]. intros F. apply H. right. exact F.
Qed.

Lemma nodup_set (k : node_name) (v : cost) (d : Dict.t) :
  NoDup (Dict.keys d) -> NoDup (Dict.keys (Dict.set k v d)).
Proof.
  intros H. destruct (Dict.mem k d) eqn:E.
  - rewrite keys_set_present by exact E. exact H.
  - assert (N : ~ In k (Dict.keys d)).
    { intros F. apply mem_in_keys in F. congruence. }
    rewrite set_absent by exact N. unfold Dict.keys in *.
    rewrite map_app. cbn.
    apply NoDup_app; [exact H | constructor; [intros [] | constructor] | ].
    intros a Ha [<- | []]. exact (N Ha).
Qed.

End DictFacts.

(** ** Tables and their dictionaries *)

Lemma fold_set_row_nodup (t : table) (d : Dict.t) :
  NoDup (Dict.keys d) -> NoDup (Dict.keys (fold_left set_row t d)).
Proof.
  revert d. induction t as [| r t IH]; cbn; intros d H; [exact H | ].
  apply IH. apply DictFacts.nodup_set. exact H.
Qed.

Lemma dict_of_table_nodup (t : table) : NoDup (Dict.keys (dict_of_table t)).
Proof. apply (fold_set_row_nodup t Dict.empty). constructor. Qed.

Lemma fold_set_row_fresh (t : table) (d : Dict.t) :
  NoDup (Dict.keys d ++ map row_dst t) ->
  fold_left set_row t d = d ++ map row_entry t.
Proof.
  revert d. induction t as [| r t IH]; cbn; intros d H.
  - rewrite app_nil_r. reflexivity.
  - assert (N : ~ In (row_dst r) (Dict.keys d)).
    { intros F. apply NoDup_remove_2 in H. apply H.
      apply in_or_app. left. exact F. }
    change (set_row d r) with (Dict.set (row_dst r) (row_cost r) d).
    rewrite DictFacts.set_absent by exact N.
    rewrite IH.
    + rewrite <- app_assoc. reflexivity.
    + unfold Dict.keys in *. rewrite map_app. cbn.
      rewrite <- app_assoc. exact H.
Qed.

(** A table without a repeated destination is its own dictionary. *)
Lemma dict_of_table_nodup_rows (t : table) :
  NoDup (map row_dst t) -> dict_of_table t = map row_entry t.
Proof. intros H. apply (fold_set_row_fresh t Dict.empty). exact H. Qed.

Lemma table_of_dict_dst (k : node_name) (d : Dict.t) :
  map row_dst (table_of_dict k d) = Dict.keys d.
Proof.
  unfold table_of_dict, Dict.keys. rewrite map_map. reflexivity.
Qed.

Lemma table_of_dict_entries (k : node_name) (d : Dict.t) :
  map row_entry (table_of_dict k d) = d.
Proof.
  unfold table_of_dict. rewrite map_map.
  rewrite <- (map_id d) at 2. apply map_ext. intros [a b]. reflexivity.
Qed.

(** Rebuilding a table from a dictionary and reading it back gives the
    dictionary. *)
Lemma dict_of_table_of_dict (k : node_name) (d : Dict.t) :
  NoDup (Dict.keys d) -> dict_of_table (table_of_dict k d) = d.
Proof.
  intros H. rewrite dict_of_table_nodup_rows.
  - apply table_of_dict_entries.
  - rewrite table_of_dict_dst. exact H.
Qed.


Lemma table_of_dict_wf (k : node_name) (d : Dict.t) :
  NoDup (Dict.keys d) -> table_wf k (table_of_dict k d).
Proof.
  intros H. split.
  - unfold table_of_dict. apply Forall_forall. intros r Hr.
    apply in_map_iff in Hr. destruct Hr as [[a b] [<- _]]. reflexivity.
  - rewrite table_of_dict_dst. exact H.
Qed.


(** ** The relaxation step *)

(** What the body of the inner loop comes to, case by case. *)
Lemma relax_row_eq (node_id : node_name) (d : Dict.t) (changed : bool)
  (src dst : node_name) (c : cost) :
  relax_row node_id (d, changed) (src, dst, c) =
  if src =? node_id then Done (d, changed)
  else
    match Dict.get src d with
    | None => Done (d, changed)
    | Some own_src =>
        match Dict.get dst d with
        | None => Fail (KeyError dst)
        | Some own_dst =>
            if (own_src + c <? own_dst)%float
            then Done (Dict.set dst (own_src + c)%float d, true)
            else Done (d, changed)
        end
    end.
Proof.
  unfold relax_row, Dict.mem, getitem.
  destruct (src =? node_id); cbn; [reflexivity | ].
  destruct (Dict.get src d) as [own_src | ]; cbn; [ | reflexivity].
  destruct (Dict.get dst d) as [own_dst | ]; cbn; [ | reflexivity].
  destruct (own_src + c <? own_dst)%float; reflexivity.
Qed.

Lemma dict_below_refl (d : Dict.t) : dict_below d d.
Proof. intros k c H. exists c. split; [exact H | apply CostFacts.le_refl]. Qed.

Lemma dict_below_trans (d1 d2 d3 : Dict.t) :
  dict_below d1 d2 -> dict_below d2 d3 -> dict_below d1 d3.
Proof.
  intros H12 H23 k c H.
  destruct (H23 k c H) as [c2 [G2 L2]].
  destruct (H12 k c2 G2) as [c1 [G1 L1]].
  exists c1. split; [exact G1 | exact (CostFacts.le_trans _ _ _ L1 L2)].
Qed.

Lemma dict_below_set (d : Dict.t) (k : node_name) (v old : cost) :
  Dict.get k d = Some old -> (v <? old)%float = true ->
  dict_below (Dict.set k v d) d.
Proof.
  intros Hold Hlt k' c H.
  destruct (String.eqb_spec k k') as [E | E].
  - subst k'. exists v. split; [apply DictFacts.get_set_same | ].
    right. congruence.
  - exists c. split; [ | apply CostFacts.le_refl].
    rewrite DictFacts.get_set_other by exact E. exact H.
Qed.

Lemma relax_row_below (node_id : node_name) (st st' : Dict.t * bool) (r : row) :
  relax_row node_id st r = Done st' ->
  dict_below (fst st') (fst st) /\
  (NoDup (Dict.keys (fst st)) -> NoDup (Dict.keys (fst st'))).
Proof.
  destruct st as [d changed], r as [[src dst] c].
  rewrite relax_row_eq.
  destruct (src =? node_id).
  { intros [= <-]. split; [apply dict_below_refl | auto]. }
  destruct (Dict.get src d) as [own_src | ].
  2:{ intros [= <-]. split; [apply dict_below_refl | auto]. }
  destruct (Dict.get dst d) as [own_dst | ] eqn:Hdst; [ | discriminate].
  destruct (own_src + c <? own_dst)%float eqn:Hlt.
  - intros [= <-]. cbn. split.
    + exact (dict_below_set _ _ _ _ Hdst Hlt).
    + apply DictFacts.nodup_set.
  - intros [= <-]. split; [apply dict_below_refl | auto].
Qed.

Lemma relax_rows_below (node_id : node_name) (t : table) (st st' : Dict.t * bool) :
  relax_rows node_id t st = Done st' ->
  dict_below (fst st') (fst st) /\
  (NoDup (Dict.keys (fst st)) -> NoDup (Dict.keys (fst st'))).
Proof.
  revert st. induction t as [| r t IH]; cbn; intros st H.
  - injection H as <-. split; [apply dict_below_refl | auto].
  - destruct (relax_row node_id st r) as [st1 | e] eqn:E; cbn in H; [ | discriminate].
    destruct (relax_row_below _ _ _ _ E) as [B1 N1].
    destruct (IH _ H) as [B2 N2].
    split; [exact (dict_below_trans _ _ _ B2 B1) | auto].
Qed.

Lemma relax_tables_below (node_id : node_name) (ts : list table)
  (st st' : Dict.t * bool) :
  relax_tables node_id ts st = Done st' ->
  dict_below (fst st') (fst st) /\
  (NoDup (Dict.keys (fst st)) -> NoDup (Dict.keys (fst st'))).
Proof.
  revert st. induction ts as [| t ts IH]; cbn; intros st H.
  - injection H as <-. split; [apply dict_below_refl | auto].
  - destruct (relax_rows node_id t st) as [st1 | e] eqn:E; cbn in H; [ | discriminate].
    destruct (relax_rows_below _ _ _ _ E) as [B1 N1].
    destruct (IH _ H) as [B2 N2].
    split; [exact (dict_below_trans _ _ _ B2 B1) | auto].
Qed.

(** [updateDV], with the monad unfolded. *)
Lemma updateDV_eq (node_id : node_name) (w : world) :
  updateDV node_id w =
  match graph_get node_id (w_graph w) with
  | None => Raised (KeyError node_id) w
  | Some node =>
      match relax_tables node_id (updatedInit node)
              (dict_of_table (initTable node), false) with
      | Fail e => Raised e w
      | Done st =>
          Ok (table_of_dict node_id (fst st), snd st)
            (with_graph
               (graph_update node_id
                  (set_initTable (table_of_dict node_id (fst st))) (w_graph w))
               w)
      end
  end.
Proof.
  unfold updateDV, bind, graph_getitem.
  destruct (graph_get node_id (w_graph w)) as [node | ]; [ | reflexivity].
  unfold lift_res.
  destruct (relax_tables _ _ _) as [st | e]; reflexivity.
Qed.

(** C9: relaxation is monotone.  Whenever [updateDV] returns, every
    destination that the node's table held before the call is still held by
    the returned table, at a cost that is the old one or strictly below it:
    no cost goes up and no destination is dropped. *)
Theorem updateDV_monotone :
  forall (node_id : node_name) (node : Node) (w w' : world)
         (updated : table) (changed : bool),
    graph_get node_id (w_graph w) = Some node ->
    updateDV node_id w = Ok (updated, changed) w' ->
    forall (d : node_name) (c : cost),
      table_cost (initTable node) d = Some c ->
      exists c', table_cost updated d = Some c' /\ cost_le c' c.
Proof.
  intros node_id node w w' updated changed Hnode Hrun d c Hc.
  rewrite updateDV_eq, Hnode in Hrun.
  destruct (relax_tables _ _ _) as [st | e] eqn:E; [ | discriminate].
  injection Hrun as <- _ _.
  destruct (relax_tables_below _ _ _ _ E) as [B N]. cbn in B, N.
  unfold table_cost.
  rewrite dict_of_table_of_dict by (apply N, dict_of_table_nodup).
  exact (B d c Hc).
Qed.


(** On a row whose destination the mapping knows, the code does what
    [relax_rule] says, and the keys of the mapping stay as they are. *)
Lemma relax_row_rule (node_id : node_name) (d : Dict.t) (k : nat) (r : row) :
  Dict.mem (row_dst r) d = true ->
  relax_row node_id (d, Nat.ltb 0 k) r =
    Done (fst (relax_rule node_id (d, k) r),
          Nat.ltb 0 (snd (relax_rule node_id (d, k) r))) /\
  forall k', Dict.mem k' (fst (relax_rule node_id (d, k) r)) = Dict.mem k' d.
Proof.
  destruct r as [[src dst] c]. cbn [row_dst fst snd]. intros Hmem.
  rewrite relax_row_eq. unfold relax_rule. cbn [fst snd].
  destruct (src =? node_id); [split; reflexivity | ].
  destruct (Dict.get src d) as [own_src | ]; [ | split; reflexivity].
  assert (Hdst : exists known, Dict.get dst d = Some known).
  { unfold Dict.mem in Hmem. destruct (Dict.get dst d) as [known | ];
      [exists known; reflexivity | discriminate]. }
  destruct Hdst as [known Hdst]. rewrite Hdst.
  destruct (own_src =? cost_inf)%float eqn:Einf.
  - apply CostFacts.eqb_inf in Einf. subst own_src.
    rewrite CostFacts.inf_plus_never_below. split; reflexivity.
  - destruct (own_src + c <? known)%float; cbn [fst snd].
    + split; [reflexivity | ].
      intros k'. apply DictFacts.mem_set_present. exact Hmem.
    + split; reflexivity.
Qed.

Lemma relax_rows_rule (node_id : node_name) (t : table) (d : Dict.t) (k : nat) :
  Forall (fun r => Dict.mem (row_dst r) d = true) t ->
  relax_rows node_id t (d, Nat.ltb 0 k) =
    Done (fst (fold_left (relax_rule node_id) t (d, k)),
          Nat.ltb 0 (snd (fold_left (relax_rule node_id) t (d, k)))) /\
  forall k', Dict.mem k' (fst (fold_left (relax_rule node_id) t (d, k)))
             = Dict.mem k' d.
Proof.
  revert d k. induction t as [| r t IH]; intros d k Hall.
  - split; reflexivity.
  - inversion Hall as [| r' t' Hr Ht]; subst.
    destruct (relax_row_rule node_id d k r Hr) as [Hstep Hkeys].
    cbn [relax_rows fold_left]. rewrite Hstep. cbn [res_bind].
    destruct (relax_rule node_id (d, k) r) as [d1 k1] eqn:E1.
    cbn [fst snd] in *.
    destruct (IH d1 k1) as [Hrest Hkeys'].
    { apply Forall_forall. intros x Hx. rewrite Hkeys.
      rewrite Forall_forall in Ht. exact (Ht x Hx). }
    split; [exact Hrest | ].
    intros k'. rewrite Hkeys'. apply Hkeys.
Qed.

Lemma relax_tables_rule (node_id : node_name) (ts : list table) (d : Dict.t)
  (k : nat) :
  Forall (Forall (fun r => Dict.mem (row_dst r) d = true)) ts ->
  relax_tables node_id ts (d, Nat.ltb 0 k) =
    Done (fst (fold_left (fun st t => fold_left (relax_rule node_id) t st) ts (d, k)),
          Nat.ltb 0
            (snd (fold_left (fun st t => fold_left (relax_rule node_id) t st) ts (d, k)))).
Proof.
  revert d k. induction ts as [| t ts IH]; intros d k Hall.
  - reflexivity.
  - inversion Hall as [| t' ts' Ht Hts]; subst.
    destruct (relax_rows_rule node_id t d k Ht) as [Hstep Hkeys].
    cbn [relax_tables fold_left]. rewrite Hstep. cbn [res_bind].
    destruct (fold_left (relax_rule node_id) t (d, k)) as [d1 k1] eqn:E1.
    cbn [fst snd] in *.
    apply IH.
    apply Forall_forall. intros x Hx.
    rewrite Forall_forall in Hts. specialize (Hts x Hx).
    apply Forall_forall. intros r Hr. rewrite Hkeys.
    rewrite Forall_forall in Hts. exact (Hts r Hr).
Qed.

(** C1, as the code has it.  When every advertised destination is one the
    node's table already holds, [updateDV] returns, and it has processed the
    rows of the mailbox by [relax_rule]: a row is skipped when its advertiser
    is the node itself, or has no entry in the node's table, or has one of
    cost infinity; otherwise the candidate is the own cost to the
    advertiser plus the advertised cost, adopted exactly when it is
    strictly below the known cost.  The rebuilt table is returned and stored,
    and [changed] is true if and only if a candidate was adopted. *)
Theorem updateDV_relaxation_rule :
  forall (node_id : node_name) (node : Node) (w : world),
    graph_get node_id (w_graph w) = Some node ->
    Forall (Forall (fun r =>
              Dict.mem (row_dst r) (dict_of_table (initTable node)) = true))
      (updatedInit node) ->
    let st := relax_rule_all node_id (initTable node) (updatedInit node) in
    let rebuilt := table_of_dict node_id (fst st) in
    updateDV node_id w =
      Ok (rebuilt, Nat.ltb 0 (snd st))
        (with_graph (graph_update node_id (set_initTable rebuilt) (w_graph w)) w).
Proof.
  intros node_id node w Hnode Hknown st rebuilt.
  rewrite updateDV_eq, Hnode.
  change false with (Nat.ltb 0 0).
  rewrite (relax_tables_rule node_id _ _ 0 Hknown).
  reflexivity.
Qed.

Lemma updateDV_relaxation_rule_witness :
  updateDV "1" (mkWorld ex_sent [] []) =
    Ok ([("1", "1", 0%float); ("1", "2", 3%float); ("1", "3", 4%float)], true)
      (with_graph
         (graph_update "1"
            (set_initTable
               [("1", "1", 0%float); ("1", "2", 3%float); ("1", "3", 4%float)])
            ex_sent)
         (mkWorld ex_sent [] [])).
Proof.
  refine (updateDV_relaxation_rule "1"
            (mkNode "1" [mkEdge "1" "2" 3%float; mkEdge "1" "3" 10%float]
               [("1", "1", 0%float); ("1", "2", 3%float); ("1", "3", 10%float)]
               [[("2", "1", 3%float); ("2", "2", 0%float); ("2", "3", 1%float)];
                [("3", "1", 10%float); ("3", "2", 1%float); ("3", "3", 0%float)]])
            (mkWorld ex_sent [] []) _ _).
  - reflexivity.
  - repeat constructor.
Defined.

(** C1 as the specification words it fails on a row advertised under the
    node's own name: node 1 holds [{1: 0, 2: 5}] and finds the row
    [[1, 2, 1]] in its mailbox.  The rule of the specification adopts the
    candidate [0 + 1] for destination 2; [updateDV] skips the row (line
    238) and reports no change. *)
Lemma updateDV_own_rows_counterexample :
  updateDV "1" own_rows_world =
    Ok ([("1", "1", 0%float); ("1", "2", 5%float)], false)
      (mkWorld
         [("1", set_initTable [("1", "1", 0%float); ("1", "2", 5%float)]
                  own_rows_node)] [] []) /\
  spec_updateDV "1" (initTable own_rows_node) (updatedInit own_rows_node) =
    ([("1", "1", 0%float); ("1", "2", 1%float)], true).
Proof. split; reflexivity. Qed.

(** A destination the table does not hold yet is not adopted either: the
    print of line 244 subscripts [own_dv_dict] with it first. *)
Example updateDV_unknown_dest_raises :
  updateDV "1" unknown_dest_world = Raised (KeyError "9") unknown_dest_world.
Proof. reflexivity. Qed.

Lemma updateDV_monotone_witness :
  exists c',
    table_cost [("1", "1", 0%float); ("1", "2", 3%float); ("1", "3", 4%float)] "3"
      = Some c' /\ cost_le c' 10%float.
Proof.
  refine (updateDV_monotone "1"
            (mkNode "1" [mkEdge "1" "2" 3%float; mkEdge "1" "3" 10%float]
               [("1", "1", 0%float); ("1", "2", 3%float); ("1", "3", 10%float)]
               [[("2", "1", 3%float); ("2", "2", 0%float); ("2", "3", 1%float)];
                [("3", "1", 10%float); ("3", "2", 1%float); ("3", "3", 0%float)]])
            (mkWorld ex_sent [] [])
            (with_graph
               (graph_update "1"
                  (set_initTable
                     [("1", "1", 0%float); ("1", "2", 3%float); ("1", "3", 4%float)])
                  ex_sent)
               (mkWorld ex_sent [] []))
            [("1", "1", 0%float); ("1", "2", 3%float); ("1", "3", 4%float)] true
            _ _ "3" 10%float _); reflexivity.
Defined.


(** ** The graph dictionary *)

Lemma graph_get_update (v k : node_name) (f : Node -> Node) (g : graph) :
  graph_get k (graph_update v f g) =
  if v =? k then option_map f (graph_get k g) else graph_get k g.
Proof.
  induction g as [| [k0 n0] g IH]; cbn.
  - destruct (v =? k); reflexivity.
  - destruct (String.eqb_spec k0 v) as [E | E]; cbn.
    + subst k0. destruct (v =? k); reflexivity.
    + destruct (String.eqb_spec k0 k) as [F | F].
      * subst k0. rewrite (name_eqb_neq v k) by congruence. reflexivity.
      * exact IH.
Qed.

Lemma graph_keys_update (v : node_name) (f : Node -> Node) (g : graph) :
  graph_keys (graph_update v f g) = graph_keys g.
Proof.
  unfold graph_keys. induction g as [| [k0 n0] g IH]; cbn; [reflexivity | ].
  destruct (k0 =? v); cbn; [reflexivity | ]. rewrite IH. reflexivity.
Qed.

Lemma graph_get_in_keys (k : node_name) (g : graph) :
  (exists n, graph_get k g = Some n) <-> In k (graph_keys g).
Proof.
  unfold graph_keys. induction g as [| [k0 n0] g IH]; cbn.
  - split; [intros [n H]; discriminate | contradiction].
  - destruct (String.eqb_spec k0 k) as [E | E].
    + split; [intros _; left; exact E | intros _; exists n0; reflexivity].
    + rewrite IH. split; [intros H; right; exact H | ].
      intros [H | H]; [contradiction | exact H].
Qed.

Lemma graph_mem_in_keys (k : node_name) (g : graph) :
  graph_mem k g = true <-> In k (graph_keys g).
Proof.
  rewrite <- graph_get_in_keys. unfold graph_mem.
  destruct (graph_get k g) as [n | ].
  - split; [intros _; exists n; reflexivity | reflexivity].
  - split; [discriminate | intros [n H]; discriminate].
Qed.

(** Updating a field with the value it has leaves the object as it is. *)
Lemma set_initTable_same (n : Node) : set_initTable (initTable n) n = n.
Proof. destruct n; reflexivity. Qed.

Lemma graph_update_at (v : node_name) (f h : Node -> Node) (g : graph) (n : Node) :
  graph_get v g = Some n -> f n = h n -> graph_update v f g = graph_update v h g.
Proof.
  induction g as [| [k0 n0] g IH]; cbn; [reflexivity | ].
  destruct (k0 =? v).
  - intros [= ->] E. rewrite E. reflexivity.
  - intros H E. rewrite (IH H E). reflexivity.
Qed.


(** ** Edges are never written *)

Lemma same_edges_refl (g : graph) : same_edges g g.
Proof. split; reflexivity. Qed.

Lemma same_edges_trans (g1 g2 g3 : graph) :
  same_edges g1 g2 -> same_edges g2 g3 -> same_edges g1 g3.
Proof.
  intros [K1 E1] [K2 E2]. split; [congruence | ].
  intros k. rewrite E1. apply E2.
Qed.

Lemma same_edges_update (v : node_name) (f : Node -> Node) (g : graph) :
  (forall n, edges (f n) = edges n) -> same_edges (graph_update v f g) g.
Proof.
  intros H. split; [apply graph_keys_update | ].
  intros k. rewrite graph_get_update.
  destruct (v =? k); [ | reflexivity].
  destruct (graph_get k g) as [n | ]; cbn; [ | reflexivity].
  rewrite H. reflexivity.
Qed.

Lemma calculate_cost_same_edges (g' g : graph) (s d : node_name) :
  same_edges g' g -> calculate_cost g' s d = calculate_cost g s d.
Proof.
  intros [_ E]. unfold calculate_cost.
  destruct (s =? d); [reflexivity | ].
  specialize (E s).
  destruct (graph_get s g') as [n' | ], (graph_get s g) as [n | ]; cbn in E;
    try discriminate; [ | reflexivity].
  injection E as ->. reflexivity.
Qed.

Lemma transmits_same_edges (g' g : graph) (s d : node_name) :
  same_edges g' g -> transmits g' s d = transmits g s d.
Proof.
  intros H. unfold transmits.
  rewrite (calculate_cost_same_edges g' g s d H). reflexivity.
Qed.

(** ** Initialisation *)

Lemma init_row_same_edges (v d : node_name) (g : graph) :
  same_edges (init_row v g d) g.
Proof. apply same_edges_update. reflexivity. Qed.

(** The inner loop of [initDVtable] for the source [v]: its rows are
    appended to the table of [v], and nothing else moves. *)
Lemma init_inner (v : node_name) (ks : list node_name) (g : graph) :
  same_edges (fold_left (init_row v) ks g) g /\
  forall k n, graph_get k g = Some n ->
    graph_get k (fold_left (init_row v) ks g) =
    Some (set_initTable
            (initTable n ++
             (if v =? k
              then map (fun d => (v, d, calculate_cost g v d)) ks
              else []))
            n).
Proof.
  revert g. induction ks as [| d ks IH]; intros g; cbn [fold_left map].
  - split; [apply same_edges_refl | ].
    intros k n H. rewrite H. f_equal.
    destruct (v =? k); rewrite app_nil_r; symmetry; apply set_initTable_same.
  - destruct (IH (init_row v g d)) as [S1 G1].
    pose proof (init_row_same_edges v d g) as S0.
    split; [exact (same_edges_trans _ _ _ S1 S0) | ].
    intros k n H.
    assert (H1 : graph_get k (init_row v g d) =
                 Some (if v =? k
                       then set_initTable
                              (initTable n ++ [(v, d, calculate_cost g v d)]) n
                       else n)).
    { unfold init_row. rewrite graph_get_update, H.
      destruct (v =? k); reflexivity. }
    rewrite (G1 k _ H1). f_equal.
    destruct (v =? k); cbn.
    + rewrite <- app_assoc. cbn. unfold set_initTable. cbn. f_equal. f_equal. f_equal.
      apply map_ext. intros x. f_equal. apply calculate_cost_same_edges. exact S0.
    + reflexivity.
Qed.

(** The outer loop over a list of sources without repetition. *)
Lemma init_outer (keys vs : list node_name) (g : graph) :
  NoDup vs ->
  same_edges (fold_left (fun g v => fold_left (init_row v) keys g) vs g) g /\
  forall k n, graph_get k g = Some n ->
    exists rows,
      graph_get k (fold_left (fun g v => fold_left (init_row v) keys g) vs g) =
        Some (set_initTable (initTable n ++ rows) n) /\
      (In k vs -> rows = map (fun d => (k, d, calculate_cost g k d)) keys) /\
      (~ In k vs -> rows = []).
Proof.
  revert g. induction vs as [| v vs IH]; intros g ND; cbn [fold_left].
  - split; [apply same_edges_refl | ].
    intros k n H. exists []. rewrite app_nil_r, set_initTable_same.
    split; [exact H | ]. split; [contradiction | reflexivity].
  - inversion ND as [| v' vs' Hv ND']; subst.
    destruct (init_inner v keys g) as [S0 G0].
    destruct (IH (fold_left (init_row v) keys g) ND') as [S1 G1].
    split; [exact (same_edges_trans _ _ _ S1 S0) | ].
    intros k n H.
    destruct (G1 k _ (G0 k n H)) as [rows [Hget [Hin Hout]]].
    destruct (String.eqb_spec v k) as [E | E].
    + subst k. rewrite (Hout Hv) in Hget. rewrite app_nil_r in Hget.
      exists (map (fun d => (v, d, calculate_cost g v d)) keys).
      split; [ | split; [reflexivity | intros F; exfalso; apply F; left; reflexivity]].
      rewrite Hget. reflexivity.
    + exists rows. rewrite app_nil_r in Hget.
      split; [rewrite Hget; reflexivity | ]. split.
      * intros [F | F]; [contradiction | ]. rewrite (Hin F).
        apply map_ext. intros d. f_equal.
        apply calculate_cost_same_edges. exact S0.
      * intros F. apply Hout. intros G. apply F. right. exact G.
Qed.

Lemma initDVtable_same_edges (g : graph) :
  NoDup (graph_keys g) -> same_edges (initDVtable g) g.
Proof. intros ND. apply (init_outer (graph_keys g) (graph_keys g) g ND). Qed.

(** The table of a node after [initDVtable]: what it held, then one row per
    key of the graph. *)
Lemma initDVtable_get (g : graph) (k : node_name) (n : Node) :
  NoDup (graph_keys g) ->
  graph_get k g = Some n ->
  graph_get k (initDVtable g) =
    Some (set_initTable
            (initTable n ++
             map (fun d => (k, d, calculate_cost g k d)) (graph_keys g)) n).
Proof.
  intros ND H.
  destruct (init_outer (graph_keys g) (graph_keys g) g ND) as [_ G].
  destruct (G k n H) as [rows [Hget [Hin _]]].
  unfold initDVtable. rewrite Hget, Hin; [reflexivity | ].
  apply graph_get_in_keys. exists n. exact H.
Qed.

Lemma calculate_cost_spec (g : graph) (k d : node_name) (n : Node) :
  graph_get k g = Some n -> calculate_cost g k d = spec_init_cost n k d.
Proof.
  intros H. unfold calculate_cost, spec_init_cost. rewrite H. reflexivity.
Qed.

Lemma filter_map_single {A : Type} (f : node_name -> A) (p : A -> bool)
  (d : node_name) (ks : list node_name) :
  NoDup ks -> In d ks ->
  (forall x, p (f x) = (x =? d)) ->
  filter p (map f ks) = [f d].
Proof.
  intros ND Hin Hp. induction ks as [| x ks IH]; [contradiction | ].
  inversion ND as [| x' ks' Hx ND']; subst. cbn. rewrite Hp.
  destruct (String.eqb_spec x d) as [E | E].
  - subst x. f_equal.
    clear IH Hin ND. induction ks as [| y ks IH]; [reflexivity | ].
    cbn. rewrite Hp. inversion ND' as [| y' ks' Hy ND'']; subst.
    destruct (String.eqb_spec y d) as [F | F].
    + subst y. exfalso. apply Hx. left. reflexivity.
    + apply IH; [ | exact ND''].
      intros G. apply Hx. right. exact G.
  - destruct Hin as [F | F]; [contradiction | ]. exact (IH ND' F).
Qed.

(** The table of a node after [initDVtable] on a graph whose tables were
    empty, with the costs as the specification words them. *)
Lemma initDVtable_fresh_table (g : graph) (n : node_name) (node : Node) :
  NoDup (graph_keys g) ->
  fresh g ->
  graph_get n g = Some node ->
  graph_get n (initDVtable g) =
    Some (set_initTable
            (map (fun d => (n, d, spec_init_cost node n d)) (graph_keys g)) node).
Proof.
  intros ND Hfresh Hget.
  rewrite (initDVtable_get g n node ND Hget), (Hfresh n node Hget). cbn.
  f_equal. f_equal. apply map_ext. intros d.
  rewrite (calculate_cost_spec g n d node Hget). reflexivity.
Qed.

(** C6: initialisation.  On a graph as the loader hands it over (a
    dictionary, so no key twice, and every table still empty),
    [initDVtable] gives every node [n] the table with one row [(n, d, cost)]
    per node [d] of the graph, in the order of the keys: exactly one row
    for every [d] and none for anything else, where [cost] is [0] for
    [n = d], the weight of the direct edge from [n] to [d] if there is
    one, and infinity otherwise. *)
Theorem initDVtable_tables :
  forall (g : graph) (n : node_name) (node : Node),
    NoDup (graph_keys g) ->
    fresh g ->
    graph_get n g = Some node ->
    exists node',
      graph_get n (initDVtable g) = Some node' /\
      initTable node' =
        map (fun d => (n, d, spec_init_cost node n d)) (graph_keys g) /\
      (forall d, In d (graph_keys g) ->
         filter (fun r => row_dst r =? d) (initTable node') =
           [(n, d, spec_init_cost node n d)]) /\
      (forall r, In r (initTable node') -> In (row_dst r) (graph_keys g)).
Proof.
  intros g n node ND Hfresh Hget.
  exists (set_initTable
            (map (fun d => (n, d, spec_init_cost node n d)) (graph_keys g)) node).
  split; [ | split; [reflexivity | split]].
  - exact (initDVtable_fresh_table g n node ND Hfresh Hget).
  - intros d Hd. cbn.
    apply (filter_map_single (fun d => (n, d, spec_init_cost node n d))
             (fun r => row_dst r =? d) d (graph_keys g) ND Hd).
    intros x. reflexivity.
  - intros r Hr. cbn in Hr. apply in_map_iff in Hr.
    destruct Hr as [d [<- Hd]]. exact Hd.
Qed.


(** ** The link mutator *)

(** The rows one loop of [DVAlgoLinkChange] leaves do not depend on the
    flag [found] it starts with. *)
Lemma adjust_rows_found (a b : node_name) (c : cost) (found : bool) (rows : table) :
  fst (fst (adjust_rows a b c found rows)) =
  fst (fst (adjust_rows a b c false rows)).
Proof.
  induction rows as [| [[src dest] cst] rows IH]; cbn; [reflexivity | ].
  destruct ((src =? a) && (dest =? b)); [reflexivity | ].
  destruct (adjust_rows a b c found rows) as [[r1 f1] p1].
  destruct (adjust_rows a b c false rows) as [[r2 f2] p2].
  cbn in *. rewrite IH. reflexivity.
Qed.

(** Row by row: a row is kept, or it is a row [(a, b, _)] and has the new
    cost. *)
Lemma adjust_rows_rel (a b : node_name) (c : cost) (found : bool) (rows : table) :
  Forall2 (rewritten a b c) rows (fst (fst (adjust_rows a b c found rows))).
Proof.
  induction rows as [| [[src dest] cst] rows IH]; cbn; [constructor | ].
  destruct (String.eqb_spec src a) as [E | E];
    [destruct (String.eqb_spec dest b) as [F | F] | ]; cbn.
  - subst. constructor.
    + right. cbn. auto.
    + clear IH. induction rows; constructor; [left; reflexivity | assumption].
  - destruct (adjust_rows a b c found rows) as [[r1 f1] p1]. cbn in *.
    constructor; [left; reflexivity | exact IH].
  - destruct (adjust_rows a b c found rows) as [[r1 f1] p1]. cbn in *.
    constructor; [left; reflexivity | exact IH].
Qed.


(** A table with the entry has it at the new cost afterwards. *)
Lemma adjust_rows_entry (a b : node_name) (c : cost) (found : bool) (rows : table) :
  entry rows a b <> None ->
  entry (fst (fst (adjust_rows a b c found rows))) a b = Some c.
Proof.
  unfold entry. induction rows as [| [[src dest] cst] rows IH]; cbn;
    [congruence | ].
  destruct ((src =? a) && (dest =? b)) eqn:E.
  - intros _. cbn. rewrite E. reflexivity.
  - intros H. destruct (adjust_rows a b c found rows) as [[r1 f1] p1]. cbn in *.
    rewrite E. exact (IH H).
Qed.

(** [adjust_link], with the monad unfolded: only the table of [a] is
    written, by [adjust_node]. *)
Lemma adjust_link_eq (a b : node_name) (c : cost) (found : bool) (w : world)
  (n : Node) :
  graph_get a (w_graph w) = Some n ->
  exists found' printed,
    adjust_link a b c found w =
      Ok found'
        (mkWorld (graph_update a (adjust_node a b c) (w_graph w)) (w_stdin w)
           (w_out w ++ printed)).
Proof.
  intros H. unfold adjust_link, bind, graph_getitem. rewrite H.
  destruct (adjust_rows a b c found (initTable n)) as [[rows found'] printed] eqn:E.
  exists found', printed. cbn.
  rewrite (graph_update_at a (set_initTable rows) (adjust_node a b c) _ n H);
    [reflexivity | ].
  unfold adjust_node. rewrite <- (adjust_rows_found a b c found), E. reflexivity.
Qed.

Lemma print_table_of_eq (k : node_name) (w : world) (n : Node) :
  graph_get k (w_graph w) = Some n ->
  print_table_of k w =
    Ok tt (mkWorld (w_graph w) (w_stdin w) (w_out w ++ [PrintTable (initTable n)])).
Proof.
  intros H. unfold print_table_of, bind, graph_getitem. rewrite H. reflexivity.
Qed.

(** With both nodes in the graph, [DVAlgoLinkChange] returns [None], and
    the graph it leaves is [adjusted]. *)
Lemma DVAlgoLinkChange_present (a b : node_name) (c : cost) (w : world) :
  graph_mem a (w_graph w) && graph_mem b (w_graph w) = true ->
  exists printed,
    DVAlgoLinkChange a b c w =
      Ok None (mkWorld (adjusted a b c (w_graph w)) (w_stdin w) (w_out w ++ printed)).
Proof.
  intros Hmem. apply andb_prop in Hmem. destruct Hmem as [Ha Hb].
  unfold graph_mem in Ha, Hb.
  destruct (graph_get a (w_graph w)) as [na | ] eqn:Ga; [ | discriminate].
  destruct (graph_get b (w_graph w)) as [nb | ] eqn:Gb; [ | discriminate].
  unfold DVAlgoLinkChange.
  unfold bind at 1. unfold get_graph at 1.
  unfold graph_mem. rewrite Ga, Gb. cbn [andb].
  set (w1 := mkWorld (w_graph w) (w_stdin w) (w_out w ++ [Print "Before Adjustment: "])).
  unfold bind at 1. change (emit (Print "Before Adjustment: ") w) with (Ok tt w1).
  unfold bind at 1. rewrite (print_table_of_eq a w1 na Ga).
  unfold bind at 1.
  match goal with |- context [print_table_of b ?w2] =>
    rewrite (print_table_of_eq b w2 nb Gb) end.
  unfold bind at 1.
  match goal with |- context [adjust_link a b c false ?w3] =>
    destruct (adjust_link_eq a b c false w3 na Ga) as [f1 [p1 E1]]; rewrite E1
  end.
  cbn [w_graph w_stdin w_out w1].
  assert (Gb' : exists nb', graph_get b (graph_update a (adjust_node a b c) (w_graph w)) = Some nb').
  { rewrite graph_get_update. destruct (a =? b); rewrite Gb; cbn; eauto. }
  destruct Gb' as [nb' Gb'].
  unfold bind at 1.
  match goal with |- context [adjust_link b a c f1 ?w4] =>
    destruct (adjust_link_eq b a c f1 w4 nb' Gb') as [f2 [p2 E2]]; rewrite E2
  end.
  cbn [w_graph w_stdin w_out].
  assert (Ga2 : exists na2, graph_get a (adjusted a b c (w_graph w)) = Some na2).
  { unfold adjusted. rewrite !graph_get_update, Ga.
    destruct (b =? a), (a =? a); cbn; eauto. }
  assert (Gb2 : exists nb2, graph_get b (adjusted a b c (w_graph w)) = Some nb2).
  { unfold adjusted. rewrite graph_get_update, Gb'.
    destruct (b =? b); cbn; eauto. }
  destruct Ga2 as [na2 Ga2]. destruct Gb2 as [nb2 Gb2].
  fold (adjusted a b c (w_graph w)).
  unfold bind at 1. unfold emit at 1. cbn [w_graph w_stdin w_out].
  unfold bind at 1. unfold emit at 1. cbn [w_graph w_stdin w_out].
  unfold bind at 1. unfold emit at 1. cbn [w_graph w_stdin w_out].
  unfold bind at 1.
  match goal with |- context [print_table_of a ?w5] =>
    rewrite (print_table_of_eq a w5 na2 Ga2) end.
  unfold bind at 1.
  match goal with |- context [print_table_of b ?w6] =>
    rewrite (print_table_of_eq b w6 nb2 Gb2) end.
  cbn [w_graph w_stdin w_out]. unfold ret.
  eexists. f_equal. f_equal.
  rewrite <- !app_assoc. reflexivity.
Qed.

(** With a node missing, it returns ['Not Exist'] and has written nothing. *)
Lemma DVAlgoLinkChange_absent (a b : node_name) (c : cost) (w : world) :
  graph_mem a (w_graph w) && graph_mem b (w_graph w) = false ->
  DVAlgoLinkChange a b c w =
    Ok (Some "Not Exist")
      (mkWorld (w_graph w) (w_stdin w)
         (w_out w ++ [Print "One or both of the specified nodes do not exist."])).
Proof.
  intros H. unfold DVAlgoLinkChange, bind, get_graph. rewrite H. reflexivity.
Qed.

Lemma adjusted_same_edges (a b : node_name) (c : cost) (g : graph) :
  same_edges (adjusted a b c g) g.
Proof.
  unfold adjusted.
  eapply same_edges_trans; apply same_edges_update; reflexivity.
Qed.


Lemma Forall2_same {A : Type} (R : A -> A -> Prop) (l : list A) :
  (forall x, R x x) -> Forall2 R l l.
Proof. intros H. induction l; constructor; auto. Qed.

Lemma Forall2_compose {A : Type} (R1 R2 R3 : A -> A -> Prop) (l1 l2 l3 : list A) :
  (forall x y z, R1 x y -> R2 y z -> R3 x z) ->
  Forall2 R1 l1 l2 -> Forall2 R2 l2 l3 -> Forall2 R3 l1 l3.
Proof.
  intros H H12. revert l3. induction H12 as [| x y l1 l2 Hxy _ IH]; intros l3 H23.
  - inversion H23. constructor.
  - inversion H23 as [| y' z l2' l3' Hyz Hrest]; subst.
    constructor; [exact (H _ _ _ Hxy Hyz) | exact (IH _ Hrest)].
Qed.

Lemma Forall2_weaken {A : Type} (R1 R2 : A -> A -> Prop) (l1 l2 : list A) :
  (forall x y, R1 x y -> R2 x y) -> Forall2 R1 l1 l2 -> Forall2 R2 l1 l2.
Proof. intros H H12. induction H12; constructor; auto. Qed.

(** The rows of node [k] before and after a call of [DVAlgoLinkChange]. *)
Lemma adjusted_get (a b : node_name) (c : cost) (g : graph) (k : node_name)
  (n : Node) :
  graph_get k g = Some n ->
  exists n',
    graph_get k (adjusted a b c g) = Some n' /\
    name n' = name n /\ edges n' = edges n /\ updatedInit n' = updatedInit n /\
    Forall2 (mutated a b c k) (initTable n) (initTable n').
Proof.
  intros H. unfold adjusted. rewrite !graph_get_update, H.
  assert (Keep : Forall2 (mutated a b c k) (initTable n) (initTable n)).
  { apply Forall2_same. intros x. left. reflexivity. }
  assert (Ra : k = a ->
            Forall2 (mutated a b c k) (initTable n)
              (initTable (adjust_node a b c n))).
  { intros ->. cbn.
    apply (Forall2_weaken (rewritten a b c)); [ | apply adjust_rows_rel].
    intros r r' [-> | [Hs [Hd ->]]]; [left; reflexivity | right].
    split; [left; auto | subst; reflexivity]. }
  assert (Rb : forall m, k = b ->
            Forall2 (mutated a b c k) (initTable n) (initTable m) ->
            Forall2 (mutated a b c k) (initTable n)
              (initTable (adjust_node b a c m))).
  { intros m -> Hm. cbn.
    apply (Forall2_compose (mutated a b c b) (rewritten b a c) (mutated a b c b)
             _ (initTable m)); [ | exact Hm | apply adjust_rows_rel].
    intros x y z [-> | [Hx ->]] [-> | [Hs [Hd ->]]].
    - left; reflexivity.
    - right. split; [right; auto | subst; reflexivity].
    - right. split; [exact Hx | reflexivity].
    - right. split; [exact Hx | ]. cbn in Hs, Hd. subst. reflexivity. }
  destruct (String.eqb_spec a k) as [Ea | Ea], (String.eqb_spec b k) as [Eb | Eb];
    cbn [option_map]; eexists; (split; [reflexivity | ]).
  - repeat split. apply Rb; [congruence | ]. apply Ra. congruence.
  - repeat split. apply Ra. congruence.
  - repeat split. apply Rb; [congruence | exact Keep].
  - repeat split. exact Keep.
Qed.

Lemma adjusted_entry_a (a b : node_name) (c : cost) (g : graph) (na : Node) :
  graph_get a g = Some na ->
  entry (initTable na) a b <> None ->
  exists na', graph_get a (adjusted a b c g) = Some na' /\
              entry (initTable na') a b = Some c.
Proof.
  intros H He. unfold adjusted. rewrite !graph_get_update, H, name_eqb_refl.
  destruct (String.eqb_spec b a) as [E | E]; cbn [option_map]; eexists;
    (split; [reflexivity | ]); cbn.
  - subst b. apply adjust_rows_entry.
    rewrite (adjust_rows_entry a a c false _ He). discriminate.
  - apply adjust_rows_entry. exact He.
Qed.

Lemma adjusted_entry_b (a b : node_name) (c : cost) (g : graph) (nb : Node) :
  graph_get b g = Some nb ->
  entry (initTable nb) b a <> None ->
  exists nb', graph_get b (adjusted a b c g) = Some nb' /\
              entry (initTable nb') b a = Some c.
Proof.
  intros H He. unfold adjusted. rewrite !graph_get_update, H, name_eqb_refl.
  destruct (String.eqb_spec a b) as [E | E]; cbn [option_map]; eexists;
    (split; [reflexivity | ]); cbn.
  - subst b. apply adjust_rows_entry.
    rewrite (adjust_rows_entry a a c false _ He). discriminate.
  - apply adjust_rows_entry. exact He.
Qed.


(** C7: frame of a successful link mutation.  When [DVAlgoLinkChange a b c]
    returns normally on a graph that holds both nodes, with the entry
    [(a, b)] in the table of [a] and the entry [(b, a)] in the table of
    [b], then afterwards both entries have the cost [c], the keys of the
    graph are the same, and every node has its name, edges and mailbox as
    before and its table row by row as before, except for rows [(a, b)] of
    [a] and rows [(b, a)] of [b], which may only have changed to the cost
    [c]. *)
Theorem DVAlgoLinkChange_frame :
  forall (a b : node_name) (c : cost) (w w' : world) (na nb : Node),
    DVAlgoLinkChange a b c w = Ok None w' ->
    graph_get a (w_graph w) = Some na ->
    graph_get b (w_graph w) = Some nb ->
    entry (initTable na) a b <> None ->
    entry (initTable nb) b a <> None ->
    (exists na' nb',
        graph_get a (w_graph w') = Some na' /\
        graph_get b (w_graph w') = Some nb' /\
        entry (initTable na') a b = Some c /\
        entry (initTable nb') b a = Some c) /\
    graph_keys (w_graph w') = graph_keys (w_graph w) /\
    forall k n, graph_get k (w_graph w) = Some n ->
      exists n',
        graph_get k (w_graph w') = Some n' /\
        name n' = name n /\ edges n' = edges n /\
        updatedInit n' = updatedInit n /\
        Forall2 (mutated a b c k) (initTable n) (initTable n').
Proof.
  intros a b c w w' na nb Hrun Ha Hb Ea Eb.
  destruct (DVAlgoLinkChange_present a b c w) as [printed Hok].
  { unfold graph_mem. rewrite Ha, Hb. reflexivity. }
  rewrite Hok in Hrun. injection Hrun as <-. cbn [w_graph].
  split; [ | split].
  - destruct (adjusted_entry_a a b c _ na Ha Ea) as [na' [Ga Ha']].
    destruct (adjusted_entry_b a b c _ nb Hb Eb) as [nb' [Gb Hb']].
    exists na', nb'. auto.
  - apply adjusted_same_edges.
  - intros k n Hk. apply adjusted_get. exact Hk.
Qed.



(** C10: the link mutator never writes an edge.  Every call of
    [DVAlgoLinkChange] returns, and the graph it leaves has the keys and,
    node by node, the edge lists it had; so [calculate_cost] gives what it
    gave, and [sendDVtoNeighbor] transmits between the same pairs of nodes
    as before, whatever costs the tables now hold. *)
Theorem DVAlgoLinkChange_keeps_edges :
  forall (a b : node_name) (c : cost) (w : world),
    exists r w',
      DVAlgoLinkChange a b c w = Ok r w' /\
      same_edges (w_graph w') (w_graph w) /\
      (forall s d, calculate_cost (w_graph w') s d = calculate_cost (w_graph w) s d) /\
      (forall s d, transmits (w_graph w') s d = transmits (w_graph w) s d) /\
      (forall d, senders_to (w_graph w') d = senders_to (w_graph w) d).
Proof.
  intros a b c w.
  assert (Hex : exists r w', DVAlgoLinkChange a b c w = Ok r w' /\
                             same_edges (w_graph w') (w_graph w)).
  { destruct (graph_mem a (w_graph w) && graph_mem b (w_graph w)) eqn:Hmem.
    - destruct (DVAlgoLinkChange_present a b c w Hmem) as [printed Hok].
      eexists. eexists. split; [exact Hok | apply adjusted_same_edges].
    - eexists. eexists.
      split; [apply DVAlgoLinkChange_absent; exact Hmem | apply same_edges_refl]. }
  destruct Hex as [r [w' [Hok Hsame]]]. exists r, w'.
  split; [exact Hok | ]. split; [exact Hsame | ]. split; [ | split].
  - intros s d. apply calculate_cost_same_edges. exact Hsame.
  - intros s d. apply transmits_same_edges. exact Hsame.
  - intros d. unfold senders_to. destruct Hsame as [Hkeys Hedges].
    rewrite Hkeys. apply filter_ext. intros s.
    apply transmits_same_edges. split; assumption.
Qed.


(** ** The cost of a node to itself *)










(** ** Broadcast *)

Lemma same_routes_refl (g : graph) : same_routes g g.
Proof. split; reflexivity. Qed.

Lemma same_routes_trans (g1 g2 g3 : graph) :
  same_routes g1 g2 -> same_routes g2 g3 -> same_routes g1 g3.
Proof.
  intros [K1 E1] [K2 E2]. split; [congruence | ].
  intros k. rewrite E1. apply E2.
Qed.

Lemma same_routes_update (v : node_name) (f : Node -> Node) (g : graph) :
  (forall n, edges (f n) = edges n /\ initTable (f n) = initTable n) ->
  same_routes (graph_update v f g) g.
Proof.
  intros H. split; [apply graph_keys_update | ].
  intros k. rewrite graph_get_update.
  destruct (v =? k); [ | reflexivity].
  destruct (graph_get k g) as [n | ]; cbn; [ | reflexivity].
  destruct (H n) as [-> ->]. reflexivity.
Qed.

Lemma same_routes_edges (g' g : graph) : same_routes g' g -> same_edges g' g.
Proof.
  intros [K E]. split; [exact K | ]. intros k. specialize (E k).
  destruct (graph_get k g') as [n' | ], (graph_get k g) as [n | ]; cbn in *;
    try discriminate; [ | reflexivity].
  injection E as -> _. reflexivity.
Qed.

Lemma same_routes_table (g' g : graph) (k : node_name) :
  same_routes g' g ->
  option_map initTable (graph_get k g') = option_map initTable (graph_get k g).
Proof.
  intros [_ E]. specialize (E k).
  destruct (graph_get k g') as [n' | ], (graph_get k g) as [n | ]; cbn in *;
    try discriminate; [ | reflexivity].
  injection E as _ ->. reflexivity.
Qed.

Lemma tables_update (v : node_name) (f : Node -> Node) (g : graph) :
  (forall n, initTable (f n) = initTable n) ->
  tables (graph_update v f g) = tables g.
Proof.
  intros H. unfold tables. induction g as [| [k0 n0] g IH]; cbn; [reflexivity | ].
  destruct (k0 =? v); cbn; [rewrite H; reflexivity | ].
  rewrite IH. reflexivity.
Qed.

Section BroadcastFacts.

Variable payload_fits : table -> bool.

Lemma advert_same_routes (g' g : graph) (s : node_name) :
  same_routes g' g -> advert payload_fits g' s = advert payload_fits g s.
Proof.
  intros H. unfold advert. pose proof (same_routes_table g' g s H) as E.
  destruct (graph_get s g') as [n' | ], (graph_get s g) as [n | ]; cbn in E;
    try discriminate; [ | reflexivity].
  injection E as ->. reflexivity.
Qed.


(** One step of the inner loop: a message for [dest_node], or nothing. *)
Lemma send_step_eq (s : node_name) (g : graph) (d : node_name) :
  same_routes (send_step payload_fits s g d) g /\
  tables (send_step payload_fits s g d) = tables g /\
  forall k n, graph_get k g = Some n ->
    graph_get k (send_step payload_fits s g d) =
    Some (set_updatedInit
            (updatedInit n ++
             (if (d =? k) && transmits g s d then advert payload_fits g s else []))
            n).
Proof.
  assert (Keep : forall k n, graph_get k g = Some n ->
            graph_get k g = Some (set_updatedInit (updatedInit n ++ []) n)).
  { intros k n H. rewrite H, app_nil_r. destruct n; reflexivity. }
  unfold send_step, transmits, advert.
  destruct (s =? d); cbn [negb andb].
  { split; [apply same_routes_refl | split; [reflexivity | ]].
    intros k n H. rewrite andb_false_r. apply Keep. exact H. }
  destruct (cost_neqb (calculate_cost g s d) cost_inf &&
            cost_neqb (calculate_cost g s d) cost_zero).
  2:{ split; [apply same_routes_refl | split; [reflexivity | ]].
      intros k n H. rewrite andb_false_r. apply Keep. exact H. }
  destruct (graph_get s g) as [ns | ].
  2:{ split; [apply same_routes_refl | split; [reflexivity | ]].
      intros k n H. destruct ((d =? k) && true); apply Keep; exact H. }
  unfold deliver. destruct (payload_fits (initTable ns)).
  2:{ split; [apply same_routes_refl | split; [reflexivity | ]].
      intros k n H. destruct ((d =? k) && true); apply Keep; exact H. }
  split; [apply same_routes_update; intros n; split; reflexivity | ].
  split; [apply tables_update; reflexivity | ].
  intros k n H. rewrite graph_get_update, H, andb_true_r.
  destruct (d =? k); cbn; [reflexivity | ].
  rewrite app_nil_r. destruct n; reflexivity.
Qed.

Lemma set_updatedInit_twice (m1 m2 : list table) (n : Node) :
  set_updatedInit m2 (set_updatedInit m1 n) = set_updatedInit m2 n.
Proof. reflexivity. Qed.

(** The inner loop for one sender over destinations without repetition. *)
Lemma send_inner (s : node_name) (ks : list node_name) (g : graph) :
  NoDup ks ->
  same_routes (fold_left (send_step payload_fits s) ks g) g /\
  tables (fold_left (send_step payload_fits s) ks g) = tables g /\
  forall k n, graph_get k g = Some n -> In k ks ->
    graph_get k (fold_left (send_step payload_fits s) ks g) =
    Some (set_updatedInit
            (updatedInit n ++
             (if transmits g s k then advert payload_fits g s else []))
            n).
Proof.
  intros ND.
  cut (same_routes (fold_left (send_step payload_fits s) ks g) g /\
       tables (fold_left (send_step payload_fits s) ks g) = tables g /\
       forall k n, graph_get k g = Some n ->
         graph_get k (fold_left (send_step payload_fits s) ks g) =
         Some (set_updatedInit
                 (updatedInit n ++
                  (if existsb (fun d => d =? k) ks && transmits g s k
                   then advert payload_fits g s else []))
                 n)).
  { intros [R [T G]]. split; [exact R | split; [exact T | ]].
    intros k n H Hin. rewrite (G k n H).
    assert (E : existsb (fun d => d =? k) ks = true).
    { apply existsb_exists. exists k. split; [exact Hin | apply name_eqb_refl]. }
    rewrite E. reflexivity. }
  revert g. induction ND as [| d ks Hd ND IH]; intros g; cbn [fold_left existsb].
  - split; [apply same_routes_refl | split; [reflexivity | ]].
    intros k n H. rewrite H, app_nil_r. destruct n; reflexivity.
  - destruct (send_step_eq s g d) as [R0 [T0 G0]].
    destruct (IH (send_step payload_fits s g d)) as [R1 [T1 G1]].
    split; [exact (same_routes_trans _ _ _ R1 R0) | ].
    split; [congruence | ].
    intros k n H. rewrite (G1 k _ (G0 k n H)). f_equal.
    rewrite set_updatedInit_twice. f_equal. cbn [updatedInit set_updatedInit].
    rewrite (transmits_same_edges _ g s k (same_routes_edges _ _ R0)).
    rewrite (advert_same_routes _ g s R0).
    destruct (String.eqb_spec d k) as [E | E]; cbn [andb orb].
    + subst k.
      assert (F : existsb (fun x => x =? d) ks = false).
      { destruct (existsb (fun x => x =? d) ks) eqn:F; [ | reflexivity].
        apply existsb_exists in F. destruct F as [x [Hx Ex]].
        apply String.eqb_eq in Ex. subst x. contradiction. }
      rewrite F. cbn [andb]. rewrite app_nil_r. reflexivity.
    + rewrite app_nil_r. reflexivity.
Qed.

(** The outer loop over a list of senders. *)
Lemma send_outer (keys vs : list node_name) (g : graph) :
  NoDup keys ->
  same_routes
    (fold_left (fun g s => fold_left (send_step payload_fits s) keys g) vs g) g /\
  tables (fold_left (fun g s => fold_left (send_step payload_fits s) keys g) vs g)
    = tables g /\
  forall k n, graph_get k g = Some n -> In k keys ->
    graph_get k
      (fold_left (fun g s => fold_left (send_step payload_fits s) keys g) vs g) =
    Some (set_updatedInit
            (updatedInit n ++
             flat_map (advert payload_fits g)
               (filter (fun s => transmits g s k) vs))
            n).
Proof.
  intros ND. revert g. induction vs as [| v vs IH]; intros g; cbn [fold_left].
  - split; [apply same_routes_refl | split; [reflexivity | ]].
    intros k n H _. rewrite H. cbn. rewrite app_nil_r. destruct n; reflexivity.
  - destruct (send_inner v keys g ND) as [R0 [T0 G0]].
    destruct (IH (fold_left (send_step payload_fits v) keys g)) as [R1 [T1 G1]].
    split; [exact (same_routes_trans _ _ _ R1 R0) | ].
    split; [congruence | ].
    intros k n H Hin. rewrite (G1 k _ (G0 k n H Hin) Hin). f_equal.
    rewrite set_updatedInit_twice. f_equal. cbn [updatedInit set_updatedInit].
    rewrite <- app_assoc. f_equal. cbn [filter].
    rewrite (filter_ext (fun s => transmits _ s k) (fun s => transmits g s k)).
    2:{ intros s. apply transmits_same_edges, same_routes_edges, R0. }
    rewrite (flat_map_ext (advert payload_fits _) (advert payload_fits g)).
    2:{ intros s. apply advert_same_routes, R0. }
    destruct (transmits g v k); cbn [flat_map]; reflexivity.
Qed.

(** One broadcast: tables and edges stay, and every mailbox grows by the
    tables of the nodes that transmit to it. *)
Lemma sendDVtoNeighbor_spec (g : graph) :
  NoDup (graph_keys g) ->
  same_routes (sendDVtoNeighbor payload_fits g) g /\
  tables (sendDVtoNeighbor payload_fits g) = tables g /\
  forall k n, graph_get k g = Some n ->
    graph_get k (sendDVtoNeighbor payload_fits g) =
    Some (set_updatedInit (updatedInit n ++ adverts payload_fits g k) n).
Proof.
  intros ND.
  destruct (send_outer (graph_keys g) (graph_keys g) g ND) as [R [T G]].
  split; [exact R | split; [exact T | ]].
  intros k n H. apply G; [exact H | ].
  apply graph_get_in_keys. exists n. exact H.
Qed.

End BroadcastFacts.


(** ** Rounds that change nothing *)








Section RoundFacts.

Variable payload_fits : table -> bool.




Lemma run_cycle_eq (w : world) :
  run_cycle payload_fits w =
  update_nodes (graph_keys (sendDVtoNeighbor payload_fits (w_graph w))) true
    (with_graph (sendDVtoNeighbor payload_fits (w_graph w)) w).
Proof. reflexivity. Qed.

Lemma graph_wf_send (g : graph) :
  graph_wf g -> graph_wf (sendDVtoNeighbor payload_fits g).
Proof.
  intros [ND Htab].
  destruct (sendDVtoNeighbor_spec payload_fits g ND) as [[K R] [_ G]].
  split; [rewrite K; exact ND | ].
  intros k n' Hn'.
  assert (Hk : exists n, graph_get k g = Some n).
  { apply graph_get_in_keys. rewrite <- K. apply graph_get_in_keys.
    exists n'. exact Hn'. }
  destruct Hk as [n Hn]. rewrite (G k n Hn) in Hn'. injection Hn' as <-.
  exact (Htab k n Hn).
Qed.


End RoundFacts.


(** ** The shape of the tables is kept *)

Lemma initDVtable_wf (g : graph) :
  NoDup (graph_keys g) -> fresh g -> graph_wf (initDVtable g).
Proof.
  intros ND Hfresh. destruct (initDVtable_same_edges g ND) as [K _].
  split; [rewrite K; exact ND | ].
  intros k n' Hn'.
  assert (Hk : exists n, graph_get k g = Some n).
  { apply graph_get_in_keys. rewrite <- K. apply graph_get_in_keys.
    exists n'. exact Hn'. }
  destruct Hk as [n Hn].
  rewrite (initDVtable_get g k n ND Hn), (Hfresh k n Hn) in Hn'.
  injection Hn' as <-. cbn. split.
  - apply Forall_forall. intros r Hr. apply in_map_iff in Hr.
    destruct Hr as [d [<- _]]. reflexivity.
  - rewrite map_map. cbn. rewrite map_id. exact ND.
Qed.

Lemma updateDV_wf (node_id : node_name) (w w' : world) (r : table * bool) :
  graph_wf (w_graph w) -> updateDV node_id w = Ok r w' -> graph_wf (w_graph w').
Proof.
  intros [ND Htab] Hrun. rewrite updateDV_eq in Hrun.
  destruct (graph_get node_id (w_graph w)) as [node | ] eqn:Hget; [ | discriminate].
  destruct (relax_tables _ _ _) as [st | e] eqn:E; [ | discriminate].
  injection Hrun as _ <-. cbn [w_graph with_graph].
  split; [rewrite graph_keys_update; exact ND | ].
  intros k n. rewrite graph_get_update.
  destruct (String.eqb_spec node_id k) as [<- | Hk]; [ | apply Htab].
  rewrite Hget. cbn. intros [= <-]. cbn.
  apply table_of_dict_wf.
  destruct (relax_tables_below _ _ _ _ E) as [_ N]. apply N.
  apply dict_of_table_nodup.
Qed.

Lemma mutated_wf (a b : node_name) (c : cost) (k : node_name) (t t' : table) :
  Forall2 (mutated a b c k) t t' -> table_wf k t -> table_wf k t'.
Proof.
  intros H.
  assert (E : map row_src t' = map row_src t /\ map row_dst t' = map row_dst t).
  { induction H as [| r r' t t' Hr _ IH]; [split; reflexivity | ].
    destruct IH as [Es Ed]. cbn [map]. rewrite Es, Ed.
    destruct Hr as [-> | [_ ->]]; split; reflexivity. }
  intros [Hsrc Hdst]. destruct E as [Es Ed]. split.
  - apply Forall_forall. intros r' Hr'.
    assert (Hin : In (row_src r') (map row_src t')) by (apply in_map; exact Hr').
    rewrite Es in Hin. apply in_map_iff in Hin. destruct Hin as [r [<- Hr]].
    rewrite Forall_forall in Hsrc. exact (Hsrc r Hr).
  - rewrite Ed. exact Hdst.
Qed.

Lemma DVAlgoLinkChange_wf (a b : node_name) (c : cost) (w w' : world)
  (r : option string) :
  graph_wf (w_graph w) -> DVAlgoLinkChange a b c w = Ok r w' ->
  graph_wf (w_graph w').
Proof.
  intros [ND Htab] Hrun.
  destruct (graph_mem a (w_graph w) && graph_mem b (w_graph w)) eqn:Hmem.
  - destruct (DVAlgoLinkChange_present a b c w Hmem) as [printed Hok].
    rewrite Hok in Hrun. injection Hrun as _ <-. cbn [w_graph].
    destruct (adjusted_same_edges a b c (w_graph w)) as [K _].
    split; [rewrite K; exact ND | ].
    intros k n' Hn'.
    assert (Hk : exists n, graph_get k (w_graph w) = Some n).
    { apply graph_get_in_keys. rewrite <- K. apply graph_get_in_keys.
      exists n'. exact Hn'. }
    destruct Hk as [n Hn].
    destruct (adjusted_get a b c _ k n Hn) as [n2 [Hn2 [_ [_ [_ Hrows]]]]].
    rewrite Hn2 in Hn'. injection Hn' as <-.
    exact (mutated_wf a b c k _ _ Hrows (Htab k n Hn)).
  - rewrite (DVAlgoLinkChange_absent a b c w Hmem) in Hrun.
    injection Hrun as _ <-. split; assumption.
Qed.

(** ** The convergence loops *)

Section LoopFacts.

Variable payload_fits : table -> bool.

Lemma updateDV_halts (node_id : node_name) (w : world) :
  halts (updateDV node_id w).
Proof.
  unfold halts. rewrite updateDV_eq.
  destruct (graph_get node_id (w_graph w)); [ | discriminate].
  destruct (relax_tables _ _ _); discriminate.
Qed.

Lemma update_nodes_halts (nodes : list node_name) (stable : bool) (w : world) :
  halts (update_nodes nodes stable w).
Proof.
  revert stable w. induction nodes as [| node rest IH]; intros stable w; cbn.
  - discriminate.
  - unfold bind at 1. pose proof (updateDV_halts node w) as H.
    destruct (updateDV node w) as [[t c] w1 | | | ]; try discriminate.
    + cbn [snd fst]. destruct c; [unfold bind, emit; cbn | ]; apply IH.
    + exfalso. apply H. reflexivity.
Qed.

Lemma update_nodes_wf (nodes : list node_name) (stable b : bool) (w w' : world) :
  graph_wf (w_graph w) -> update_nodes nodes stable w = Ok b w' ->
  graph_wf (w_graph w').
Proof.
  revert stable w. induction nodes as [| node rest IH]; intros stable w Hwf; cbn.
  - intros [= _ <-]. exact Hwf.
  - unfold bind at 1.
    destruct (updateDV node w) as [[t c] w1 | | | ] eqn:E; try discriminate.
    pose proof (updateDV_wf _ _ _ _ Hwf E) as Hwf1.
    cbn [snd fst]. destruct c; [unfold bind, emit; cbn | ]; apply IH; exact Hwf1.
Qed.

(** A round keeps the shape of the graph. *)
Lemma run_cycle_wf (b : bool) (w w' : world) :
  graph_wf (w_graph w) -> run_cycle payload_fits w = Ok b w' ->
  graph_wf (w_graph w').
Proof.
  intros Hwf. rewrite run_cycle_eq. apply update_nodes_wf.
  cbn. apply graph_wf_send. exact Hwf.
Qed.

Lemma run_cycle_halts (w : world) : halts (run_cycle payload_fits w).
Proof. rewrite run_cycle_eq. apply update_nodes_halts. Qed.

(** One pass of the stepped loop, by what the round and the user do. *)
Lemma breaks_loop_step (fuel max_cycles cycles : nat) (w : world) :
  cycles < max_cycles ->
  breaks_loop payload_fits (S fuel) max_cycles false cycles w =
  match run_cycle payload_fits w with
  | Ok true w1 => Ok (S cycles) w1
  | Ok false w1 =>
      let out1 := w_out w1 ++ [Prompt "Continue to next cycle? (Y/N): "] in
      match w_stdin w1 with
      | [] => Raised EOFError (mkWorld (w_graph w1) [] out1)
      | decision :: rest =>
          if upper decision =? "Y" then
            if Nat.leb max_cycles (S cycles) then
              Ok (S cycles)
                (mkWorld (w_graph w1) rest
                   (out1 ++ [Print "Reached maxiumum cycles without becoming stable"]))
            else
              breaks_loop payload_fits fuel max_cycles false (S cycles)
                (mkWorld (w_graph w1) rest out1)
          else
            let out2 := (out1 ++ [Print "User halted the algorithm."]) ++
                        [Prompt "Press Enter to Exit..."] in
            match rest with
            | [] => Raised EOFError (mkWorld (w_graph w1) [] out2)
            | _ :: rest' => Exited 1 (mkWorld (w_graph w1) rest' out2)
            end
      end
  | Raised e w1 => Raised e w1
  | Exited s w1 => Exited s w1
  | OutOfFuel => OutOfFuel
  end.
Proof.
  intros Hlt. apply Nat.ltb_lt in Hlt. cbn [breaks_loop negb andb]. rewrite Hlt.
  unfold bind at 1.
  destruct (run_cycle payload_fits w) as [[|] w1 | | | ]; try reflexivity.
  unfold bind at 1. unfold input at 1.
  destruct (w_stdin w1) as [| decision rest]; [reflexivity | ].
  destruct (upper decision =? "Y"); cbn [negb].
  - unfold bind at 1. unfold ret at 1.
    destruct (Nat.leb max_cycles (S cycles)); reflexivity.
  - unfold bind, emit, input, os_exit. cbn.
    destruct rest; reflexivity.
Qed.

Lemma nobreaks_loop_step (fuel max_cycles cycles : nat) (w : world) :
  nobreaks_loop payload_fits (S fuel) max_cycles false cycles w =
  match run_cycle payload_fits w with
  | Ok true w1 => Ok (S cycles) w1
  | Ok false w1 =>
      if Nat.leb max_cycles (S cycles) then
        Ok (S cycles)
          (mkWorld (w_graph w1) (w_stdin w1)
             (w_out w1 ++ [Print "Reached maxiumum cycles without becoming stable"]))
      else nobreaks_loop payload_fits fuel max_cycles false (S cycles) w1
  | Raised e w1 => Raised e w1
  | Exited s w1 => Exited s w1
  | OutOfFuel => OutOfFuel
  end.
Proof.
  cbn [nobreaks_loop negb]. unfold bind at 1.
  destruct (run_cycle payload_fits w) as [[|] w1 | | | ]; try reflexivity.
  destruct (Nat.leb max_cycles (S cycles)); reflexivity.
Qed.

(** The budget covers the loops. *)
Lemma breaks_loop_halts (fuel max_cycles cycles : nat) (w : world) :
  max_cycles - cycles <= fuel ->
  halts (breaks_loop payload_fits fuel max_cycles false cycles w).
Proof.
  revert cycles w. induction fuel as [| fuel IH]; intros cycles w Hfuel.
  - cbn [breaks_loop negb andb].
    assert (E : Nat.ltb cycles max_cycles = false) by (apply Nat.ltb_ge; lia).
    rewrite E. discriminate.
  - destruct (Nat.ltb cycles max_cycles) eqn:E.
    + apply Nat.ltb_lt in E. rewrite (breaks_loop_step _ _ _ _ E).
      pose proof (run_cycle_halts w) as H.
      destruct (run_cycle payload_fits w) as [[|] w1 | | | ]; try discriminate;
        [ | exfalso; apply H; reflexivity].
      cbn zeta. destruct (w_stdin w1) as [| decision rest]; [discriminate | ].
      destruct (upper decision =? "Y").
      * destruct (Nat.leb max_cycles (S cycles)); [discriminate | ].
        apply IH. lia.
      * destruct rest; discriminate.
    + cbn [breaks_loop negb andb]. rewrite E. discriminate.
Qed.

Lemma nobreaks_loop_halts (fuel max_cycles cycles : nat) (w : world) :
  1 <= fuel -> max_cycles - cycles <= fuel ->
  halts (nobreaks_loop payload_fits fuel max_cycles false cycles w).
Proof.
  revert cycles w. induction fuel as [| fuel IH]; intros cycles w H1 Hfuel;
    [lia | ].
  rewrite nobreaks_loop_step.
  pose proof (run_cycle_halts w) as H.
  destruct (run_cycle payload_fits w) as [[|] w1 | | | ]; try discriminate;
    [ | exfalso; apply H; reflexivity].
  destruct (Nat.leb max_cycles (S cycles)) eqn:E; [discriminate | ].
  apply Nat.leb_gt in E. apply IH; lia.
Qed.

(** The loops leave with [cycles] within the bound. *)
Lemma breaks_loop_bound (fuel max_cycles cycles c : nat) (stable : bool)
  (w w' : world) :
  cycles <= max_cycles ->
  breaks_loop payload_fits fuel max_cycles stable cycles w = Ok c w' ->
  c <= max_cycles.
Proof.
  revert cycles stable w. induction fuel as [| fuel IH]; intros cycles stable w Hle.
  - cbn [breaks_loop]. destruct (negb stable && Nat.ltb cycles max_cycles);
      [discriminate | ]. intros [= <- _]. exact Hle.
  - destruct stable.
    { cbn [breaks_loop negb andb]. intros [= <- _]. exact Hle. }
    destruct (Nat.ltb cycles max_cycles) eqn:E.
    + apply Nat.ltb_lt in E. rewrite (breaks_loop_step _ _ _ _ E).
      destruct (run_cycle payload_fits w) as [[|] w1 | | | ]; try discriminate.
      * intros [= <- _]. lia.
      * cbn zeta. destruct (w_stdin w1) as [| decision rest]; [discriminate | ].
        destruct (upper decision =? "Y").
        -- destruct (Nat.leb max_cycles (S cycles)).
           ++ intros [= <- _]. lia.
           ++ apply IH. lia.
        -- destruct rest; discriminate.
    + cbn [breaks_loop negb andb]. rewrite E. intros [= <- _]. exact Hle.
Qed.

Lemma nobreaks_loop_bound (fuel max_cycles cycles c : nat) (w w' : world) :
  cycles < max_cycles ->
  nobreaks_loop payload_fits fuel max_cycles false cycles w = Ok c w' ->
  c <= max_cycles.
Proof.
  revert cycles w. induction fuel as [| fuel IH]; intros cycles w Hlt.
  - cbn. discriminate.
  - rewrite nobreaks_loop_step.
    destruct (run_cycle payload_fits w) as [[|] w1 | | | ]; try discriminate.
    + intros [= <- _]. lia.
    + destruct (Nat.leb max_cycles (S cycles)) eqn:E.
      * intros [= <- _]. lia.
      * apply Nat.leb_gt in E. apply IH. lia.
Qed.

(** C3, as the code has it.  In stepped mode, when a round has changed
    some node and the answer to the continuation prompt is not [Y] (in
    either case), the controller prints that the user halted, asks for
    Enter, and then ends the hosting process itself with status 1
    ([os._exit(1)]); nothing runs after that round, so the graph at the
    exit is the graph at the end of the round. *)
Theorem breaks_loop_decline :
  forall (fuel max_cycles cycles : nat) (w w1 : world)
         (decision line : string) (rest : list string),
    cycles < max_cycles ->
    run_cycle payload_fits w = Ok false w1 ->
    w_stdin w1 = decision :: line :: rest ->
    upper decision <> "Y" ->
    breaks_loop payload_fits (S fuel) max_cycles false cycles w =
      Exited 1
        (mkWorld (w_graph w1) rest
           (w_out w1 ++
            [Prompt "Continue to next cycle? (Y/N): ";
             Print "User halted the algorithm.";
             Prompt "Press Enter to Exit..."])).
Proof.
  intros fuel max_cycles cycles w w1 decision line rest Hlt Hrun Hin Hno.
  rewrite (breaks_loop_step _ _ _ _ Hlt), Hrun. cbn zeta. rewrite Hin.
  apply String.eqb_neq in Hno. rewrite Hno.
  rewrite <- !app_assoc. reflexivity.
Qed.

(** C5, as the code has it.  Both loops end within the budget of the
    model.  The stepped loop leaves with at most [len(graph) * 50] cycles
    counted, and so does the unattended loop on a graph that is not
    empty.  When the round that reaches the bound is still unstable, the
    unattended loop prints that the maximum was reached and returns with
    the graph of that round; the stepped loop does the same once the
    continuation prompt after that round is answered [Y]. *)
Theorem convergence_loops_bounded :
  forall (w : world),
    let max_cycles := List.length (w_graph w) * 50 in
    halts (DVAlgorithmBreaks payload_fits w) /\
    halts (DVAlgorithmNoBreaks payload_fits w) /\
    (forall c w',
        breaks_loop payload_fits max_cycles max_cycles false 0 w = Ok c w' ->
        c <= max_cycles) /\
    (forall c w',
        w_graph w <> [] ->
        nobreaks_loop payload_fits (S max_cycles) max_cycles false 0 w = Ok c w' ->
        c <= max_cycles) /\
    (forall fuel cycles w0 w1,
        S cycles = max_cycles ->
        run_cycle payload_fits w0 = Ok false w1 ->
        nobreaks_loop payload_fits (S fuel) max_cycles false cycles w0 =
          Ok max_cycles
            (mkWorld (w_graph w1) (w_stdin w1)
               (w_out w1 ++
                [Print "Reached maxiumum cycles without becoming stable"]))) /\
    (forall fuel cycles w0 w1 decision rest,
        S cycles = max_cycles ->
        run_cycle payload_fits w0 = Ok false w1 ->
        w_stdin w1 = decision :: rest ->
        upper decision = "Y" ->
        breaks_loop payload_fits (S fuel) max_cycles false cycles w0 =
          Ok max_cycles
            (mkWorld (w_graph w1) rest
               (w_out w1 ++
                [Prompt "Continue to next cycle? (Y/N): ";
                 Print "Reached maxiumum cycles without becoming stable"]))).
Proof.
  intros w max_cycles. repeat split.
  - unfold halts, DVAlgorithmBreaks, bind, get_graph. fold max_cycles.
    pose proof (breaks_loop_halts max_cycles max_cycles 0 w) as H.
    destruct (breaks_loop payload_fits max_cycles max_cycles false 0 w);
      try discriminate.
    exfalso. apply H; [lia | reflexivity].
  - unfold halts, DVAlgorithmNoBreaks, bind, get_graph. fold max_cycles.
    pose proof (nobreaks_loop_halts (S max_cycles) max_cycles 0 w) as H.
    destruct (nobreaks_loop payload_fits (S max_cycles) max_cycles false 0 w);
      try discriminate.
    exfalso. apply H; [lia | lia | reflexivity].
  - intros c w'. apply breaks_loop_bound. lia.
  - intros c w' Hne. apply nobreaks_loop_bound.
    subst max_cycles. destruct (w_graph w); [congruence | cbn; lia].
  - intros fuel cycles w0 w1 Hc Hrun. rewrite nobreaks_loop_step, Hrun.
    rewrite Hc, Nat.leb_refl. reflexivity.
  - intros fuel cycles w0 w1 decision rest Hc Hrun Hin Hyes.
    rewrite breaks_loop_step by lia. rewrite Hrun. cbn zeta.
    rewrite Hin, Hyes. cbn [String.eqb Ascii.eqb Bool.eqb]. 
    rewrite Hc, Nat.leb_refl, <- app_assoc. reflexivity.
Qed.

End LoopFacts.


(** * Concrete runs *)

(** No name twice in a list of literal names. *)
Ltac nodup_names :=
  repeat (constructor; [cbn; intuition discriminate | ]); constructor.

Lemma graph_get_cons_inv (k k0 : node_name) (n n0 : Node) (g : graph) :
  graph_get k ((k0, n0) :: g) = Some n ->
  (k0 = k /\ n0 = n) \/ graph_get k g = Some n.
Proof.
  cbn. destruct (String.eqb_spec k0 k) as [E | E].
  - intros [= <-]. left. split; [exact E | reflexivity].
  - intros H. right. exact H.
Qed.

(** A property of every node of a literal graph, node by node. *)
Ltac each_node k n H :=
  repeat (apply graph_get_cons_inv in H; destruct H as [[<- <-] | H]);
  [.. | discriminate H]; cbn.

Lemma ex_fresh_nodup : NoDup (graph_keys ex_fresh).
Proof. cbn. nodup_names. Qed.

Lemma ex_fresh_fresh : fresh ex_fresh.
Proof. intros k n H. each_node k n H; reflexivity. Qed.

(** The invariant at work: the graph of the worked example is well formed
    after [initDVtable], and so it is after the first round. *)
Lemma ex_round1_wf : graph_wf (w_graph ex_round1).
Proof.
  apply (run_cycle_wf all_fit false (mkWorld ex_init [] []) ex_round1).
  - exact (initDVtable_wf ex_fresh ex_fresh_nodup ex_fresh_fresh).
  - reflexivity.
Qed.

(** The worked example of the specification: both rounds, and the run as a
    whole, which counts two cycles. *)
Example worked_example :
  tables ex_init =
    [("1", [("1", "1", 0%float); ("1", "2", 3%float); ("1", "3", 10%float)]);
     ("2", [("2", "1", 3%float); ("2", "2", 0%float); ("2", "3", 1%float)]);
     ("3", [("3", "1", 10%float); ("3", "2", 1%float); ("3", "3", 0%float)])] /\
  run_cycle all_fit (mkWorld ex_init [] []) = Ok false ex_round1 /\
  tables (w_graph ex_round1) =
    [("1", [("1", "1", 0%float); ("1", "2", 3%float); ("1", "3", 4%float)]);
     ("2", [("2", "1", 3%float); ("2", "2", 0%float); ("2", "3", 1%float)]);
     ("3", [("3", "1", 4%float); ("3", "2", 1%float); ("3", "3", 0%float)])] /\
  run_cycle all_fit ex_round1 = Ok true ex_round2 /\
  exists w',
    DVAlgorithmNoBreaks all_fit (mkWorld ex_init [] []) = Ok tt w' /\
    w_graph w' = w_graph ex_round2 /\
    In (PrintCycles 2) (w_out w').
Proof.
  repeat split. eexists. split; [vm_compute; reflexivity | ].
  split; [reflexivity | cbn; auto 10].
Qed.

(** The link mutation example of the specification. *)
Example link_mutation_example :
  DVAlgoLinkChange "1" "2" 100%float ex_round2 = Ok None ex_mutated /\
  tables (w_graph ex_mutated) =
    [("1", [("1", "1", 0%float); ("1", "2", 100%float); ("1", "3", 4%float)]);
     ("2", [("2", "1", 100%float); ("2", "2", 0%float); ("2", "3", 1%float)]);
     ("3", [("3", "1", 4%float); ("3", "2", 1%float); ("3", "3", 0%float)])].
Proof. split; reflexivity. Qed.

Lemma initDVtable_tables_witness :
  exists node',
    graph_get "1" (initDVtable ex_fresh) = Some node' /\
    initTable node' =
      map (fun d =>
             ("1", d,
              spec_init_cost
                (mkNode "1" [mkEdge "1" "2" 3%float; mkEdge "1" "3" 10%float] [] [])
                "1" d))
        (graph_keys ex_fresh) /\
    (forall d, In d (graph_keys ex_fresh) ->
       filter (fun r => row_dst r =? d) (initTable node') =
         [("1", d,
           spec_init_cost
             (mkNode "1" [mkEdge "1" "2" 3%float; mkEdge "1" "3" 10%float] [] [])
             "1" d)]) /\
    (forall r, In r (initTable node') -> In (row_dst r) (graph_keys ex_fresh)).
Proof.
  apply (initDVtable_tables ex_fresh "1"
           (mkNode "1" [mkEdge "1" "2" 3%float; mkEdge "1" "3" 10%float] [] [])).
  - cbn. nodup_names.
  - intros k n H. each_node k n H; reflexivity.
  - reflexivity.
Defined.

Lemma DVAlgoLinkChange_frame_witness :
  (exists na' nb',
      graph_get "1" (w_graph ex_mutated) = Some na' /\
      graph_get "2" (w_graph ex_mutated) = Some nb' /\
      entry (initTable na') "1" "2" = Some 100%float /\
      entry (initTable nb') "2" "1" = Some 100%float) /\
  graph_keys (w_graph ex_mutated) = graph_keys (w_graph ex_round2) /\
  forall k n, graph_get k (w_graph ex_round2) = Some n ->
    exists n',
      graph_get k (w_graph ex_mutated) = Some n' /\
      name n' = name n /\ edges n' = edges n /\
      updatedInit n' = updatedInit n /\
      Forall2 (mutated "1" "2" 100%float k) (initTable n) (initTable n').
Proof.
  refine (DVAlgoLinkChange_frame "1" "2" 100%float ex_round2 ex_mutated
            (mkNode "1" _ _ _) (mkNode "2" _ _ _) _ _ _ _ _).
  - reflexivity.
  - reflexivity.
  - reflexivity.
  - cbn. discriminate.
  - cbn. discriminate.
Defined.


Lemma breaks_loop_decline_witness :
  breaks_loop all_fit 150 150 false 0 ex_declining =
    Exited 1
      (mkWorld (w_graph ex_declined) []
         (w_out ex_declined ++
          [Prompt "Continue to next cycle? (Y/N): ";
           Print "User halted the algorithm.";
           Prompt "Press Enter to Exit..."])).
Proof.
  apply (breaks_loop_decline all_fit 149 150 0 ex_declining ex_declined "N" "" []).
  - lia.
  - reflexivity.
  - reflexivity.
  - cbn. discriminate.
Defined.

(** C3 as the specification words it fails on the worked example: the
    first round changes nodes 1 and 3, the user answers [N], and
    [DVAlgorithmBreaks] ends the process with status 1 instead of
    returning to its caller. *)
Lemma DVAlgorithmBreaks_exit_counterexample :
  exists w',
    DVAlgorithmBreaks all_fit ex_declining = Exited 1 w' /\
    tables (w_graph w') =
      [("1", [("1", "1", 0%float); ("1", "2", 3%float); ("1", "3", 4%float)]);
       ("2", [("2", "1", 3%float); ("2", "2", 0%float); ("2", "3", 1%float)]);
       ("3", [("3", "1", 4%float); ("3", "2", 1%float); ("3", "3", 0%float)])].
Proof. eexists. split; [vm_compute; reflexivity | reflexivity]. Qed.

(** C5 as the specification words it fails twice.  On the empty graph the
    bound is [0 * 50 = 0], and the unattended loop still runs one cycle.
    On the two nodes joined by an edge of weight [-1] every round is
    unstable; with [Y] answered 99 times and [N] after the hundredth round,
    which reaches the bound [2 * 50], the stepped loop ends the process
    instead of reporting that the maximum was reached. *)
Lemma convergence_loops_counterexample :
  DVAlgorithmNoBreaks all_fit (mkWorld [] [] []) =
    Ok tt (mkWorld [] [] [PrintCycles 1; PrintTotalTime]) /\
  exists w',
    DVAlgorithmBreaks all_fit (mkWorld neg_init (repeat "Y" 99 ++ ["N"; ""]) [])
      = Exited 1 w' /\
    w_stdin w' = [] /\
    List.length neg_init * 50 = 100.
Proof.
  split; [reflexivity | ].
  eexists. split; [vm_compute; reflexivity | split; reflexivity].
Qed.

Lemma convergence_loops_bounded_witness :
  2 <= List.length (w_graph (mkWorld ex_init [] [])) * 50.
Proof.
  refine (proj1 (proj2 (proj2 (proj2 (convergence_loops_bounded all_fit
                                        (mkWorld ex_init [] [])))))
            2 ex_round2 _ _).
  - cbn. discriminate.
  - vm_compute. reflexivity.
Defined.




(** * Further properties of the code *)

(** ** More on [updateDV] *)




(** The relaxation step never adds a key and never drops one. *)
Lemma relax_row_keys (node_id : node_name) (st st' : Dict.t * bool) (r : row) :
  relax_row node_id st r = Done st' ->
  Dict.keys (fst st') = Dict.keys (fst st).
Proof.
  destruct st as [d changed], r as [[src dst] c]. rewrite relax_row_eq.
  destruct (src =? node_id); [intros [= <-]; reflexivity | ].
  destruct (Dict.get src d) as [own_src | ]; [ | intros [= <-]; reflexivity].
  destruct (Dict.get dst d) as [own_dst | ] eqn:Hdst; [ | discriminate].
  destruct (own_src + c <? own_dst)%float; intros [= <-]; [ | reflexivity].
  cbn. apply DictFacts.keys_set_present. unfold Dict.mem. rewrite Hdst.
  reflexivity.
Qed.

Lemma relax_rows_keys (node_id : node_name) (t : table) (st st' : Dict.t * bool) :
  relax_rows node_id t st = Done st' ->
  Dict.keys (fst st') = Dict.keys (fst st).
Proof.
  revert st. induction t as [| r t IH]; intros st; cbn [relax_rows].
  - intros [= <-]. reflexivity.
  - destruct (relax_row node_id st r) as [st1 | e] eqn:E; cbn [res_bind];
      [ | intros H; discriminate H].
    intros H. rewrite (IH _ H). exact (relax_row_keys _ _ _ _ E).
Qed.

Lemma relax_tables_keys (node_id : node_name) (ts : list table)
  (st st' : Dict.t * bool) :
  relax_tables node_id ts st = Done st' ->
  Dict.keys (fst st') = Dict.keys (fst st).
Proof.
  revert st. induction ts as [| t ts IH]; intros st; cbn [relax_tables].
  - intros [= <-]. reflexivity.
  - destruct (relax_rows node_id t st) as [st1 | e] eqn:E; cbn [res_bind];
      [ | intros H; discriminate H].
    intros H. rewrite (IH _ H). exact (relax_rows_keys _ _ _ _ E).
Qed.




Lemma relax_row_fails (node_id : node_name) (st : Dict.t * bool) (r : row)
  (e : exn) :
  relax_row node_id st r = Fail e ->
  row_src r <> node_id /\ In (row_src r) (Dict.keys (fst st)) /\
  ~ In (row_dst r) (Dict.keys (fst st)) /\ e = KeyError (row_dst r).
Proof.
  destruct st as [d changed], r as [[src dst] c]. rewrite relax_row_eq.
  cbn [row_src row_dst fst snd].
  destruct (String.eqb_spec src node_id) as [E | E]; [discriminate | ].
  destruct (Dict.get src d) as [own_src | ] eqn:Hsrc; [ | discriminate].
  destruct (Dict.get dst d) as [own_dst | ] eqn:Hdst.
  { destruct (own_src + c <? own_dst)%float; discriminate. }
  intros [= <-]. split; [exact E | ]. split.
  - apply DictFacts.mem_in_keys. unfold Dict.mem. rewrite Hsrc. reflexivity.
  - split; [apply DictFacts.get_none_not_in; exact Hdst | reflexivity].
Qed.

Lemma relax_rows_fails (node_id : node_name) (t : table) (st : Dict.t * bool)
  (e : exn) :
  relax_rows node_id t st = Fail e ->
  exists r, In r t /\
    row_src r <> node_id /\ In (row_src r) (Dict.keys (fst st)) /\
    ~ In (row_dst r) (Dict.keys (fst st)) /\ e = KeyError (row_dst r).
Proof.
  revert st. induction t as [| r t IH]; intros st; cbn [relax_rows];
    [discriminate | ].
  destruct (relax_row node_id st r) as [st1 | e1] eqn:E; cbn [res_bind].
  - intros H. destruct (IH _ H) as [r' [Hin Hr']].
    rewrite (relax_row_keys _ _ _ _ E) in Hr'.
    exists r'. split; [right; exact Hin | exact Hr'].
  - intros [= <-]. exists r. split; [left; reflexivity | ].
    exact (relax_row_fails _ _ _ _ E).
Qed.

Lemma relax_tables_fails (node_id : node_name) (ts : list table)
  (st : Dict.t * bool) (e : exn) :
  relax_tables node_id ts st = Fail e ->
  exists t r, In t ts /\ In r t /\
    row_src r <> node_id /\ In (row_src r) (Dict.keys (fst st)) /\
    ~ In (row_dst r) (Dict.keys (fst st)) /\ e = KeyError (row_dst r).
Proof.
  revert st. induction ts as [| t ts IH]; intros st; cbn [relax_tables];
    [discriminate | ].
  destruct (relax_rows node_id t st) as [st1 | e1] eqn:E; cbn [res_bind].
  - intros H. destruct (IH _ H) as [t' [r' [Hin Hr']]].
    rewrite (relax_rows_keys _ _ _ _ E) in Hr'.
    exists t', r'. split; [right; exact Hin | exact Hr'].
  - intros [= <-]. destruct (relax_rows_fails _ _ _ _ E) as [r [Hin Hr]].
    exists t, r. split; [left; reflexivity | split; assumption].
Qed.



Lemma cost_lt_le (x y z : cost) :
  (x <? y)%float = true -> cost_le y z -> (x <? z)%float = true.
Proof.
  intros Hxy [<- | Hyz]; [exact Hxy | exact (CostFacts.ltb_trans _ _ _ Hxy Hyz)].
Qed.

Lemma cost_le_lt (x y z : cost) :
  cost_le x y -> (y <? z)%float = true -> (x <? z)%float = true.
Proof.
  intros [-> | Hxy] Hyz; [exact Hyz | exact (CostFacts.ltb_trans _ _ _ Hxy Hyz)].
Qed.

Lemma dict_lowered_below (d2 d1 d0 : Dict.t) :
  dict_below d2 d1 -> dict_lowered d1 d0 -> dict_lowered d2 d0.
Proof.
  intros B [k [c [c1 [H0 [H1 Hlt]]]]].
  destruct (B k c1 H1) as [c2 [H2 Hle]].
  exists k, c, c2. split; [exact H0 | split; [exact H2 | ]].
  exact (cost_le_lt _ _ _ Hle Hlt).
Qed.

Lemma keys_get_some (k : node_name) (d d' : Dict.t) (c : cost) :
  Dict.keys d' = Dict.keys d -> Dict.get k d' = Some c ->
  exists c0, Dict.get k d = Some c0.
Proof.
  intros K H. destruct (Dict.get k d) as [c0 | ] eqn:E; [exists c0; reflexivity | ].
  apply DictFacts.get_none_not_in in E. rewrite <- K in E.
  apply DictFacts.get_none_not_in in E. congruence.
Qed.

(** The flag and the mapping move together: relative to a mapping [d0]
    that the current one is below and shares its keys with, a set flag means
    that some cost is strictly lower, and a clear flag that none has moved. *)
Lemma relax_row_flag (node_id : node_name) (d0 : Dict.t) (st st' : Dict.t * bool)
  (r : row) :
  relax_row node_id st r = Done st' ->
  Dict.keys (fst st) = Dict.keys d0 -> dict_below (fst st) d0 ->
  (snd st = true -> dict_lowered (fst st) d0) ->
  (snd st = false -> fst st = d0) ->
  (snd st' = true -> dict_lowered (fst st') d0) /\
  (snd st' = false -> fst st' = d0).
Proof.
  intros Hrun K B Hset Hclear.
  destruct (relax_row_below _ _ _ _ Hrun) as [B1 _].
  destruct st as [d changed], r as [[src dst] c]. rewrite relax_row_eq in Hrun.
  cbn [fst snd] in *.
  destruct (src =? node_id); [injection Hrun as <-; auto | ].
  destruct (Dict.get src d) as [own_src | ]; [ | injection Hrun as <-; auto].
  destruct (Dict.get dst d) as [own_dst | ] eqn:Hdst; [ | discriminate].
  destruct (own_src + c <? own_dst)%float eqn:Hlt; [ | injection Hrun as <-; auto].
  injection Hrun as <-. cbn [fst snd]. split; [intros _ | discriminate].
  destruct (keys_get_some dst d0 d own_dst K Hdst) as [c0 H0].
  destruct (B dst c0 H0) as [c1 [H1 Hle]].
  rewrite Hdst in H1. injection H1 as <-.
  exists dst, c0, (own_src + c)%float.
  split; [exact H0 | split; [apply DictFacts.get_set_same | ]].
  exact (cost_lt_le _ _ _ Hlt Hle).
Qed.

Lemma relax_rows_flag (node_id : node_name) (d0 : Dict.t) (t : table)
  (st st' : Dict.t * bool) :
  relax_rows node_id t st = Done st' ->
  Dict.keys (fst st) = Dict.keys d0 -> dict_below (fst st) d0 ->
  (snd st = true -> dict_lowered (fst st) d0) ->
  (snd st = false -> fst st = d0) ->
  Dict.keys (fst st') = Dict.keys d0 /\ dict_below (fst st') d0 /\
  (snd st' = true -> dict_lowered (fst st') d0) /\
  (snd st' = false -> fst st' = d0).
Proof.
  revert st. induction t as [| r t IH]; intros st; cbn [relax_rows].
  - intros [= <-]. auto.
  - destruct (relax_row node_id st r) as [st1 | e] eqn:E; cbn [res_bind];
      [ | intros H; discriminate H].
    intros H K B Hset Hclear.
    destruct (relax_row_flag _ d0 _ _ _ E K B Hset Hclear) as [Hset1 Hclear1].
    destruct (relax_row_below _ _ _ _ E) as [B1 _].
    apply (IH st1 H).
    + rewrite (relax_row_keys _ _ _ _ E). exact K.
    + exact (dict_below_trans _ _ _ B1 B).
    + exact Hset1.
    + exact Hclear1.
Qed.

Lemma relax_tables_flag (node_id : node_name) (d0 : Dict.t) (ts : list table)
  (st st' : Dict.t * bool) :
  relax_tables node_id ts st = Done st' ->
  Dict.keys (fst st) = Dict.keys d0 -> dict_below (fst st) d0 ->
  (snd st = true -> dict_lowered (fst st) d0) ->
  (snd st = false -> fst st = d0) ->
  (snd st' = true -> dict_lowered (fst st') d0) /\
  (snd st' = false -> fst st' = d0).
Proof.
  revert st. induction ts as [| t ts IH]; intros st; cbn [relax_tables].
  - intros [= <-]. auto.
  - destruct (relax_rows node_id t st) as [st1 | e] eqn:E; cbn [res_bind];
      [ | intros H; discriminate H].
    intros H K B Hset Hclear.
    destruct (relax_rows_flag _ d0 _ _ _ E K B Hset Hclear)
      as [K1 [B1 [Hset1 Hclear1]]].
    exact (IH st1 H K1 B1 Hset1 Hclear1).
Qed.

(** X3: the flag [changed] is accurate.  When [updateDV] returns with
    [changed] false, the returned table holds for every destination the cost
    the old table held; when it returns with [changed] true, some
    destination has a cost strictly below its old one. *)
Theorem updateDV_changed_flag :
  forall (node_id : node_name) (node : Node) (w w' : world) (updated : table)
         (changed : bool),
    graph_get node_id (w_graph w) = Some node ->
    updateDV node_id w = Ok (updated, changed) w' ->
    (changed = false ->
       forall d, table_cost updated d = table_cost (initTable node) d) /\
    (changed = true ->
       exists d c c',
         table_cost (initTable node) d = Some c /\
         table_cost updated d = Some c' /\ (c' <? c)%float = true).
Proof.
  intros node_id node w w' updated changed Hget Hrun.
  rewrite updateDV_eq, Hget in Hrun.
  destruct (relax_tables _ _ _) as [st | e] eqn:E; [ | discriminate].
  injection Hrun as <- <- _.
  destruct (relax_tables_below _ _ _ _ E) as [_ ND]. cbn [fst] in ND.
  specialize (ND (dict_of_table_nodup _)).
  destruct (relax_tables_flag node_id (dict_of_table (initTable node)) _ _ _ E)
    as [Hset Hclear]; cbn [fst snd]; try reflexivity; try discriminate.
  { apply dict_below_refl. }
  unfold table_cost. rewrite (dict_of_table_of_dict node_id (fst st) ND).
  split.
  - intros H d. rewrite (Hclear H). reflexivity.
  - intros H. exact (Hset H).
Qed.

Lemma updateDV_changed_flag_witness :
  let t1 := [("1", "1", 0%float); ("1", "2", 3%float); ("1", "3", 4%float)] in
  let node :=
    mkNode "1" [mkEdge "1" "2" 3%float; mkEdge "1" "3" 10%float]
      [("1", "1", 0%float); ("1", "2", 3%float); ("1", "3", 10%float)]
      [[("2", "1", 3%float); ("2", "2", 0%float); ("2", "3", 1%float)];
       [("3", "1", 10%float); ("3", "2", 1%float); ("3", "3", 0%float)]] in
  (true = false ->
     forall d, table_cost t1 d = table_cost (initTable node) d) /\
  (true = true ->
     exists d c c',
       table_cost (initTable node) d = Some c /\
       table_cost t1 d = Some c' /\ (c' <? c)%float = true).
Proof.
  intros t1 node.
  apply (updateDV_changed_flag "1" node (mkWorld ex_sent [] [])
           (with_graph (graph_update "1" (set_initTable t1) ex_sent)
              (mkWorld ex_sent [] []))
           t1 true); reflexivity.
Defined.


(** ** More on [sendDVtoNeighbor] *)

Lemma filter_length_lt {A : Type} (p : A -> bool) (l : list A) (x : A) :
  In x l -> p x = false -> List.length (filter p l) < List.length l.
Proof.
  induction l as [| y l IH]; [contradiction | ].
  intros [-> | Hin] Hx; cbn.
  - rewrite Hx. pose proof (filter_length_le p l). lia.
  - specialize (IH Hin Hx). destruct (p y); cbn; lia.
Qed.

Lemma flat_map_length_le {A B : Type} (f : A -> list B) (l : list A) :
  (forall x, List.length (f x) <= 1) ->
  List.length (flat_map f l) <= List.length l.
Proof.
  intros H. induction l as [| x l IH]; cbn; [lia | ].
  rewrite length_app. specialize (H x). lia.
Qed.

Lemma transmits_edge (g : graph) (s k : node_name) :
  transmits g s k = true ->
  s <> k /\
  exists ns e,
    graph_get s g = Some ns /\
    find (fun e => destination e =? k) (edges ns) = Some e /\
    cost_neqb (weight e) cost_inf = true /\
    cost_neqb (weight e) cost_zero = true.
Proof.
  unfold transmits, calculate_cost.
  destruct (String.eqb_spec s k) as [E | E]; [discriminate | ].
  cbn [negb andb]. intros H. split; [exact E | ].
  destruct (graph_get s g) as [ns | ]; [ | discriminate].
  destruct (find _ (edges ns)) as [e | ] eqn:He; [ | discriminate].
  apply andb_prop in H. destruct H as [H1 H2].
  exists ns, e. repeat split; assumption.
Qed.

(** X4: what one broadcast does.  On a graph without a repeated key,
    [sendDVtoNeighbor] leaves the keys and every table as they are, and the
    mailbox of every node grows by the tables of the nodes that transmit to
    it, in the order of the keys.  Every table that arrives is the current
    table of another node whose first edge to the receiver has a weight
    that is neither infinity nor zero, so a node never advertises to itself
    or across an edge of weight zero; and a mailbox grows by fewer tables
    than the graph has nodes. *)
Theorem sendDVtoNeighbor_effect :
  forall (payload_fits : table -> bool) (g : graph),
    NoDup (graph_keys g) ->
    graph_keys (sendDVtoNeighbor payload_fits g) = graph_keys g /\
    tables (sendDVtoNeighbor payload_fits g) = tables g /\
    forall k n, graph_get k g = Some n ->
      graph_get k (sendDVtoNeighbor payload_fits g) =
        Some (set_updatedInit (updatedInit n ++ adverts payload_fits g k) n) /\
      List.length (adverts payload_fits g k) < List.length (graph_keys g) /\
      forall t, In t (adverts payload_fits g k) ->
        exists s ns e,
          s <> k /\ graph_get s g = Some ns /\ t = initTable ns /\
          payload_fits t = true /\
          find (fun e => destination e =? k) (edges ns) = Some e /\
          cost_neqb (weight e) cost_inf = true /\
          cost_neqb (weight e) cost_zero = true.
Proof.
  intros payload_fits g ND.
  destruct (sendDVtoNeighbor_spec payload_fits g ND) as [[K _] [T G]].
  split; [exact K | split; [exact T | ]].
  intros k n Hget. split; [exact (G k n Hget) | ]. split.
  - unfold adverts.
    apply Nat.le_lt_trans with (List.length (senders_to g k)).
    + apply flat_map_length_le. intros s. unfold advert.
      destruct (graph_get s g) as [ns | ]; [ | cbn; lia].
      destruct (payload_fits (initTable ns)); cbn; lia.
    + unfold senders_to. apply (filter_length_lt _ _ k).
      * apply graph_get_in_keys. exists n. exact Hget.
      * unfold transmits. rewrite name_eqb_refl. reflexivity.
  - intros t Ht. unfold adverts in Ht. apply in_flat_map in Ht.
    destruct Ht as [s [Hs Ht]]. unfold senders_to in Hs.
    apply filter_In in Hs. destruct Hs as [_ Hs].
    destruct (transmits_edge g s k Hs) as [Hne [ns [e [Hns [He [H1 H2]]]]]].
    unfold advert in Ht. rewrite Hns in Ht.
    destruct (payload_fits (initTable ns)) eqn:Hfit; [ | contradiction].
    destruct Ht as [<- | []].
    exists s, ns, e. auto 10.
Qed.

Lemma sendDVtoNeighbor_effect_witness :
  graph_keys (sendDVtoNeighbor all_fit ex_init) = graph_keys ex_init /\
  tables (sendDVtoNeighbor all_fit ex_init) = tables ex_init /\
  forall k n, graph_get k ex_init = Some n ->
    graph_get k (sendDVtoNeighbor all_fit ex_init) =
      Some (set_updatedInit (updatedInit n ++ adverts all_fit ex_init k) n) /\
    List.length (adverts all_fit ex_init k) < List.length (graph_keys ex_init) /\
    forall t, In t (adverts all_fit ex_init k) ->
      exists s ns e,
        s <> k /\ graph_get s ex_init = Some ns /\ t = initTable ns /\
        all_fit t = true /\
        find (fun e => destination e =? k) (edges ns) = Some e /\
        cost_neqb (weight e) cost_inf = true /\
        cost_neqb (weight e) cost_zero = true.
Proof.
  apply (sendDVtoNeighbor_effect all_fit ex_init). cbn. nodup_names.
Defined.


(** ** The state of a running program *)

Lemma loaded_fresh (g : graph) : loaded g -> fresh g.
Proof. intros [_ H] k n Hget. exact (proj1 (H k n Hget)). Qed.

Lemma initDVtable_settled (g : graph) : loaded g -> settled (initDVtable g).
Proof.
  intros Hl. pose proof (loaded_fresh g Hl) as Hfresh. destruct Hl as [ND Hempty].
  destruct (initDVtable_same_edges g ND) as [K _].
  assert (Back : forall k n', graph_get k (initDVtable g) = Some n' ->
            exists n, graph_get k g = Some n /\
              n' = set_initTable
                     (map (fun d => (k, d, calculate_cost g k d)) (graph_keys g)) n).
  { intros k n' Hn'.
    assert (Hk : exists n, graph_get k g = Some n).
    { apply graph_get_in_keys. rewrite <- K. apply graph_get_in_keys.
      exists n'. exact Hn'. }
    destruct Hk as [n Hn]. exists n. split; [exact Hn | ].
    rewrite (initDVtable_get g k n ND Hn), (Hfresh k n Hn) in Hn'.
    injection Hn' as <-. reflexivity. }
  split; [exact (initDVtable_wf g ND Hfresh) | split].
  - intros k n' Hn'. destruct (Back k n' Hn') as [n [_ ->]]. cbn.
    unfold destinations. rewrite map_map. cbn. rewrite map_id. symmetry. exact K.
  - intros k n' Hn'. destruct (Back k n' Hn') as [n [Hn ->]]. cbn.
    rewrite (proj2 (Hempty k n Hn)). constructor.
Qed.

Lemma destinations_nodup_keys (t : table) :
  NoDup (destinations t) -> Dict.keys (dict_of_table t) = destinations t.
Proof.
  intros ND. rewrite (dict_of_table_nodup_rows t ND).
  unfold Dict.keys, destinations. rewrite map_map. reflexivity.
Qed.

(** On a settled graph [updateDV] returns, and the graph stays settled. *)
Lemma updateDV_settled (node_id : node_name) (w : world) :
  settled (w_graph w) -> In node_id (graph_keys (w_graph w)) ->
  exists r w', updateDV node_id w = Ok r w' /\ settled (w_graph w') /\
               w_stdin w' = w_stdin w /\
               graph_keys (w_graph w') = graph_keys (w_graph w).
Proof.
  intros [Hwf [Hcomp Hmail]] Hin.
  apply graph_get_in_keys in Hin. destruct Hin as [node Hget].
  destruct (proj2 Hwf node_id node Hget) as [Hsrc Hdst].
  assert (Hknown :
    Forall (Forall (fun r =>
                      Dict.mem (row_dst r) (dict_of_table (initTable node)) = true))
      (updatedInit node)).
  { pose proof (Hmail node_id node Hget) as H.
    apply Forall_forall. intros t Ht. apply Forall_forall. intros r Hr.
    rewrite Forall_forall in H. specialize (H t Ht).
    rewrite Forall_forall in H. specialize (H r Hr).
    apply DictFacts.mem_in_keys. rewrite (destinations_nodup_keys _ Hdst).
    rewrite (Hcomp node_id node Hget). exact H. }
  assert (Hex : exists st,
            relax_tables node_id (updatedInit node)
              (dict_of_table (initTable node), false) = Done st).
  { pose proof (relax_tables_rule node_id _ _ 0 Hknown) as Hrun.
    change (Nat.ltb 0 0) with false in Hrun. eexists. exact Hrun. }
  destruct Hex as [st Hrun].
  eexists. eexists. split.
  { rewrite updateDV_eq, Hget, Hrun. reflexivity. }
  cbn [w_graph w_stdin w_out with_graph fst snd].
  split; [ | split; [reflexivity | apply graph_keys_update]].
  pose proof (relax_tables_keys _ _ _ _ Hrun) as K. cbn [fst] in K.
  destruct (relax_tables_below _ _ _ _ Hrun) as [_ ND]. cbn [fst] in ND.
  specialize (ND (dict_of_table_nodup _)).
  split; [ | split].
  - split; [rewrite graph_keys_update; exact (proj1 Hwf) | ].
    intros k n. rewrite graph_get_update.
    destruct (String.eqb_spec node_id k) as [<- | Hk]; [ | apply (proj2 Hwf)].
    rewrite Hget. cbn. intros [= <-]. cbn. apply table_of_dict_wf. exact ND.
  - intros k n. rewrite graph_keys_update, graph_get_update.
    destruct (String.eqb_spec node_id k) as [<- | Hk]; [ | apply Hcomp].
    rewrite Hget. cbn. intros [= <-]. cbn.
    change (map row_dst (table_of_dict node_id (fst st)) =
            graph_keys (w_graph w)).
    rewrite table_of_dict_dst, K, (destinations_nodup_keys _ Hdst).
    exact (Hcomp node_id node Hget).
  - intros k n. rewrite graph_keys_update, graph_get_update.
    destruct (String.eqb_spec node_id k) as [<- | Hk]; [ | apply Hmail].
    rewrite Hget. cbn. intros [= <-]. cbn. exact (Hmail node_id node Hget).
Qed.

Lemma mutated_destinations (a b : node_name) (c : cost) (k : node_name)
  (t t' : table) :
  Forall2 (mutated a b c k) t t' -> destinations t' = destinations t.
Proof.
  unfold destinations.
  induction 1 as [| r r' t t' Hr _ IH]; [reflexivity | ].
  cbn [map]. rewrite IH. destruct Hr as [-> | [_ ->]]; reflexivity.
Qed.

Lemma DVAlgoLinkChange_settled (a b : node_name) (c : cost) (w w' : world)
  (r : option string) :
  settled (w_graph w) -> DVAlgoLinkChange a b c w = Ok r w' ->
  settled (w_graph w').
Proof.
  intros [Hwf [Hcomp Hmail]] Hrun.
  split; [exact (DVAlgoLinkChange_wf a b c w w' r Hwf Hrun) | ].
  destruct (graph_mem a (w_graph w) && graph_mem b (w_graph w)) eqn:Hmem.
  - destruct (DVAlgoLinkChange_present a b c w Hmem) as [printed Hok].
    rewrite Hok in Hrun. injection Hrun as _ <-. cbn [w_graph].
    destruct (adjusted_same_edges a b c (w_graph w)) as [K _].
    assert (Back : forall k n', graph_get k (adjusted a b c (w_graph w)) = Some n' ->
              exists n, graph_get k (w_graph w) = Some n /\
                updatedInit n' = updatedInit n /\
                Forall2 (mutated a b c k) (initTable n) (initTable n')).
    { intros k n' Hn'.
      assert (Hk : exists n, graph_get k (w_graph w) = Some n).
      { apply graph_get_in_keys. rewrite <- K. apply graph_get_in_keys.
        exists n'. exact Hn'. }
      destruct Hk as [n Hn]. exists n.
      destruct (adjusted_get a b c _ k n Hn) as [n2 [Hn2 [_ [_ [Hm Hrows]]]]].
      rewrite Hn2 in Hn'. injection Hn' as <-. auto. }
    split.
    + intros k n' Hn'. destruct (Back k n' Hn') as [n [Hn [_ Hrows]]].
      rewrite (mutated_destinations _ _ _ _ _ _ Hrows), K. exact (Hcomp k n Hn).
    + intros k n' Hn'. destruct (Back k n' Hn') as [n [Hn [Hm _]]].
      rewrite Hm, K. exact (Hmail k n Hn).
  - rewrite (DVAlgoLinkChange_absent a b c w Hmem) in Hrun.
    injection Hrun as _ <-. split; assumption.
Qed.

Section SettledFacts.

Variable payload_fits : table -> bool.

Lemma sendDVtoNeighbor_settled (g : graph) :
  settled g -> settled (sendDVtoNeighbor payload_fits g).
Proof.
  intros [Hwf [Hcomp Hmail]].
  destruct (sendDVtoNeighbor_spec payload_fits g (proj1 Hwf)) as [[K R] [_ G]].
  assert (Back : forall k n', graph_get k (sendDVtoNeighbor payload_fits g) = Some n' ->
            exists n, graph_get k g = Some n /\
              n' = set_updatedInit (updatedInit n ++ adverts payload_fits g k) n).
  { intros k n' Hn'.
    assert (Hk : exists n, graph_get k g = Some n).
    { apply graph_get_in_keys. rewrite <- K. apply graph_get_in_keys.
      exists n'. exact Hn'. }
    destruct Hk as [n Hn]. exists n. split; [exact Hn | ].
    rewrite (G k n Hn) in Hn'. injection Hn' as <-. reflexivity. }
  split; [exact (graph_wf_send payload_fits g Hwf) | split].
  - intros k n' Hn'. destruct (Back k n' Hn') as [n [Hn ->]]. cbn.
    rewrite K. exact (Hcomp k n Hn).
  - intros k n' Hn'. destruct (Back k n' Hn') as [n [Hn ->]]. cbn.
    rewrite K. apply Forall_app. split; [exact (Hmail k n Hn) | ].
    apply Forall_forall. intros t Ht. unfold adverts in Ht.
    apply in_flat_map in Ht. destruct Ht as [s [_ Ht]]. unfold advert in Ht.
    destruct (graph_get s g) as [ns | ] eqn:Hs; [ | contradiction].
    destruct (payload_fits (initTable ns)); [ | contradiction].
    destruct Ht as [<- | []].
    apply Forall_forall. intros r Hr. rewrite <- (Hcomp s ns Hs).
    unfold destinations. apply in_map. exact Hr.
Qed.

Lemma update_nodes_settled (nodes : list node_name) (stable : bool) (w : world) :
  settled (w_graph w) ->
  (forall k, In k nodes -> In k (graph_keys (w_graph w))) ->
  exists b w', update_nodes nodes stable w = Ok b w' /\ settled (w_graph w') /\
               w_stdin w' = w_stdin w.
Proof.
  revert stable w. induction nodes as [| node rest IH]; intros stable w Hs Hin.
  - exists stable, w. split; [reflexivity | split; [exact Hs | reflexivity]].
  - destruct (updateDV_settled node w Hs (Hin node (or_introl eq_refl)))
      as [[t c] [w1 [Hrun [Hs1 [Hi1 K1]]]]].
    cbn [update_nodes]. unfold bind at 1. rewrite Hrun. cbn [snd fst].
    destruct c.
    + unfold bind, emit. cbn [w_graph w_stdin w_out].
      destruct (IH false (mkWorld (w_graph w1) (w_stdin w1)
                            ((w_out w1 ++ [PrintUpdated node t]) ++ [GuiUpdate node t])))
        as [b [w' [H [Hs' Hi']]]]; cbn [w_graph].
      * exact Hs1.
      * intros k Hk. rewrite K1. apply Hin. right. exact Hk.
      * exists b, w'. split; [exact H | split; [exact Hs' | ]].
        rewrite Hi'. cbn. exact Hi1.
    + destruct (IH stable w1 Hs1) as [b [w' [H [Hs' Hi']]]].
      * intros k Hk. rewrite K1. apply Hin. right. exact Hk.
      * exists b, w'. split; [exact H | split; [exact Hs' | congruence]].
Qed.

(** A round on a settled graph returns, and the graph stays settled. *)
Lemma run_cycle_settled (w : world) :
  settled (w_graph w) ->
  exists b w', run_cycle payload_fits w = Ok b w' /\ settled (w_graph w') /\
               w_stdin w' = w_stdin w.
Proof.
  intros Hs. rewrite run_cycle_eq.
  destruct (update_nodes_settled
              (graph_keys (sendDVtoNeighbor payload_fits (w_graph w))) true
              (with_graph (sendDVtoNeighbor payload_fits (w_graph w)) w))
    as [b [w' [H [Hs' Hi']]]]; cbn [w_graph with_graph].
  - apply sendDVtoNeighbor_settled. exact Hs.
  - auto.
  - exists b, w'. auto.
Qed.

End SettledFacts.

(** X5: the exception of [updateDV] cannot occur in a running program.
    After [initDVtable] on a graph as the loader leaves it (no key twice,
    tables and mailboxes empty) the graph is settled: well formed, every
    table with one row per node, every mailbox row about a node of the
    graph.  On a settled graph a whole round, broadcast and [updateDV] at
    every node, returns normally, whatever the fabric drops, and leaves the
    graph settled; and so does every call of [DVAlgoLinkChange]. *)
Theorem settled_invariant :
  (forall g, loaded g -> settled (initDVtable g)) /\
  (forall payload_fits w,
      settled (w_graph w) ->
      exists stable w',
        run_cycle payload_fits w = Ok stable w' /\ settled (w_graph w')) /\
  (forall a b c w,
      settled (w_graph w) ->
      exists r w', DVAlgoLinkChange a b c w = Ok r w' /\ settled (w_graph w')).
Proof.
  split; [exact initDVtable_settled | split].
  - intros payload_fits w Hs.
    destruct (run_cycle_settled payload_fits w Hs) as [b [w' [H [Hs' _]]]].
    exists b, w'. auto.
  - intros a b c w Hs.
    assert (Hex : exists r w', DVAlgoLinkChange a b c w = Ok r w').
    { destruct (graph_mem a (w_graph w) && graph_mem b (w_graph w)) eqn:Hmem.
      - destruct (DVAlgoLinkChange_present a b c w Hmem) as [printed Hok]. eauto.
      - rewrite (DVAlgoLinkChange_absent a b c w Hmem). eauto. }
    destruct Hex as [r [w' Hok]]. exists r, w'.
    split; [exact Hok | exact (DVAlgoLinkChange_settled a b c w w' r Hs Hok)].
Qed.

Lemma ex_fresh_loaded : loaded ex_fresh.
Proof.
  split; [cbn; nodup_names | ].
  intros k n H. each_node k n H; split; reflexivity.
Qed.

Lemma settled_invariant_witness :
  settled (initDVtable ex_fresh) /\
  exists stable w',
    run_cycle all_fit (mkWorld ex_init [] []) = Ok stable w' /\
    settled (w_graph w').
Proof.
  split.
  - apply (proj1 settled_invariant ex_fresh).
    split; [cbn; nodup_names | ].
    intros k n H. each_node k n H; split; reflexivity.
  - apply (proj1 (proj2 settled_invariant) all_fit (mkWorld ex_init [] [])).
    apply (proj1 settled_invariant ex_fresh).
    split; [cbn; nodup_names | ].
    intros k n H. each_node k n H; split; reflexivity.
Defined.


(** ** The controllers in a running program *)

Section ControllerFacts.

Variable payload_fits : table -> bool.

(** A pass over the nodes never reads the input and never ends the
    process; what it can raise is the [KeyError] of [updateDV]. *)
Lemma update_nodes_io (nodes : list node_name) (stable : bool) (w : world) :
  match update_nodes nodes stable w with
  | Ok _ w' => w_stdin w' = w_stdin w
  | Raised e w' => (exists k, e = KeyError k) /\ w_stdin w' = w_stdin w
  | Exited _ _ => False
  | OutOfFuel => False
  end.
Proof.
  revert stable w. induction nodes as [| node rest IH]; intros stable w;
    cbn [update_nodes]; [reflexivity | ].
  unfold bind at 1. rewrite updateDV_eq.
  destruct (graph_get node (w_graph w)) as [n | ]; [ | split; eauto].
  destruct (relax_tables _ _ _) as [st | e] eqn:E.
  - cbn [snd fst]. destruct (snd st).
    + unfold bind, emit. cbn [w_graph w_stdin w_out].
      match goal with |- context [update_nodes rest false ?v] =>
        specialize (IH false v); destruct (update_nodes rest false v) end;
        cbn in IH; auto.
    + match goal with |- context [update_nodes rest stable ?v] =>
        specialize (IH stable v); destruct (update_nodes rest stable v) end;
        cbn in IH; auto.
  - destruct (relax_tables_fails _ _ _ _ E) as [t [r [_ [_ [_ [_ [_ ->]]]]]]].
    split; eauto.
Qed.

Lemma run_cycle_io (w : world) :
  match run_cycle payload_fits w with
  | Ok _ w' => w_stdin w' = w_stdin w
  | Raised e w' => (exists k, e = KeyError k) /\ w_stdin w' = w_stdin w
  | Exited _ _ => False
  | OutOfFuel => False
  end.
Proof.
  rewrite run_cycle_eq.
  exact (update_nodes_io _ true
           (with_graph (sendDVtoNeighbor payload_fits (w_graph w)) w)).
Qed.

Lemma nobreaks_loop_io (fuel max_cycles cycles : nat) (w : world) :
  1 <= fuel -> max_cycles - cycles <= fuel ->
  match nobreaks_loop payload_fits fuel max_cycles false cycles w with
  | Ok _ w' => w_stdin w' = w_stdin w
  | Raised e w' => (exists k, e = KeyError k) /\ w_stdin w' = w_stdin w
  | Exited _ _ => False
  | OutOfFuel => False
  end.
Proof.
  revert cycles w. induction fuel as [| fuel IH]; intros cycles w H1 Hfuel;
    [lia | ].
  rewrite nobreaks_loop_step. pose proof (run_cycle_io w) as Hio.
  destruct (run_cycle payload_fits w) as [[|] w1 | e w1 | | ]; try exact Hio.
  destruct (Nat.leb max_cycles (S cycles)) eqn:E; [exact Hio | ].
  apply Nat.leb_gt in E.
  assert (Hf : 1 <= fuel) by lia. assert (Hm : max_cycles - S cycles <= fuel) by lia.
  specialize (IH (S cycles) w1 Hf Hm).
  destruct (nobreaks_loop payload_fits fuel max_cycles false (S cycles) w1);
    try exact IH.
  - congruence.
  - destruct IH as [Hk Hi]. split; [exact Hk | congruence].
Qed.

(** X6: unattended mode is unattended.  Whatever the graph,
    [DVAlgorithmNoBreaks] never reads a line of input and never ends the
    process: it returns, or it lets the [KeyError] of [updateDV] escape; in
    both cases the input is as it was. *)
Theorem DVAlgorithmNoBreaks_unattended :
  forall (w : world),
    match DVAlgorithmNoBreaks payload_fits w with
    | Ok _ w' => w_stdin w' = w_stdin w
    | Raised e w' => (exists k, e = KeyError k) /\ w_stdin w' = w_stdin w
    | Exited _ _ => False
    | OutOfFuel => False
    end.
Proof.
  intros w. unfold DVAlgorithmNoBreaks, bind, get_graph.
  set (m := List.length (w_graph w) * 50).
  pose proof (nobreaks_loop_io (S m) m 0 w) as H.
  destruct (nobreaks_loop payload_fits (S m) m false 0 w) as [c w1 | e w1 | | ];
    cbn; apply H; lia.
Qed.

Lemma nobreaks_loop_settled (fuel max_cycles cycles : nat) (w : world) :
  settled (w_graph w) -> 1 <= fuel -> max_cycles - cycles <= fuel ->
  exists c w',
    nobreaks_loop payload_fits fuel max_cycles false cycles w = Ok c w' /\
    settled (w_graph w').
Proof.
  revert cycles w. induction fuel as [| fuel IH]; intros cycles w Hs H1 Hfuel;
    [lia | ].
  rewrite nobreaks_loop_step.
  destruct (run_cycle_settled payload_fits w Hs) as [b [w1 [Hrun [Hs1 _]]]].
  rewrite Hrun. destruct b; [eauto | ].
  destruct (Nat.leb max_cycles (S cycles)) eqn:E; [eauto | ].
  apply Nat.leb_gt in E. apply IH; [exact Hs1 | lia | lia].
Qed.

Lemma breaks_loop_settled (fuel max_cycles cycles : nat) (w : world) :
  settled (w_graph w) -> max_cycles - cycles <= fuel ->
  match breaks_loop payload_fits fuel max_cycles false cycles w with
  | Ok _ w' => settled (w_graph w')
  | Raised e w' => e = EOFError /\ settled (w_graph w')
  | Exited status w' => status = 1%Z /\ settled (w_graph w')
  | OutOfFuel => False
  end.
Proof.
  revert cycles w. induction fuel as [| fuel IH]; intros cycles w Hs Hfuel.
  - cbn [breaks_loop negb andb].
    assert (E : Nat.ltb cycles max_cycles = false) by (apply Nat.ltb_ge; lia).
    rewrite E. exact Hs.
  - destruct (Nat.ltb cycles max_cycles) eqn:E.
    + apply Nat.ltb_lt in E. rewrite (breaks_loop_step _ _ _ _ _ E).
      destruct (run_cycle_settled payload_fits w Hs) as [b [w1 [Hrun [Hs1 _]]]].
      rewrite Hrun. destruct b; [exact Hs1 | ]. cbn zeta.
      destruct (w_stdin w1) as [| decision rest]; [split; [reflexivity | exact Hs1] | ].
      destruct (upper decision =? "Y").
      * destruct (Nat.leb max_cycles (S cycles)) eqn:F; [exact Hs1 | ].
        apply Nat.leb_gt in F. apply IH; [exact Hs1 | lia].
      * destruct rest; split; try reflexivity; exact Hs1.
    + cbn [breaks_loop negb andb]. rewrite E. exact Hs.
Qed.

(** X7: the controllers in a running program.  On a settled graph
    [DVAlgorithmNoBreaks] always returns normally.  [DVAlgorithmBreaks]
    returns normally, or ends the process with status 1 on a declined
    prompt, or raises [EOFError] when the input ends at a prompt: it never
    raises [KeyError].  In every case the graph is settled afterwards. *)
Theorem controllers_on_settled :
  forall (w : world),
    settled (w_graph w) ->
    (exists w', DVAlgorithmNoBreaks payload_fits w = Ok tt w' /\
                settled (w_graph w')) /\
    match DVAlgorithmBreaks payload_fits w with
    | Ok _ w' => settled (w_graph w')
    | Raised e w' => e = EOFError /\ settled (w_graph w')
    | Exited status w' => status = 1%Z /\ settled (w_graph w')
    | OutOfFuel => False
    end.
Proof.
  intros w Hs. split.
  - unfold DVAlgorithmNoBreaks, bind, get_graph.
    set (m := List.length (w_graph w) * 50).
    destruct (nobreaks_loop_settled (S m) m 0 w Hs) as [c [w1 [Hrun Hs1]]];
      [lia | lia | ].
    rewrite Hrun. eexists. split; [reflexivity | exact Hs1].
  - unfold DVAlgorithmBreaks, bind, get_graph.
    set (m := List.length (w_graph w) * 50).
    pose proof (breaks_loop_settled m m 0 w Hs) as H.
    destruct (breaks_loop payload_fits m m false 0 w) as [c w1 | e w1 | s w1 | ];
      cbn; apply H; lia.
Qed.

End ControllerFacts.

Lemma controllers_on_settled_witness :
  (exists w', DVAlgorithmNoBreaks all_fit (mkWorld (initDVtable ex_fresh) [] [])
                = Ok tt w' /\ settled (w_graph w')) /\
  match DVAlgorithmBreaks all_fit (mkWorld (initDVtable ex_fresh) [] []) with
  | Ok _ w' => settled (w_graph w')
  | Raised e w' => e = EOFError /\ settled (w_graph w')
  | Exited status w' => status = 1%Z /\ settled (w_graph w')
  | OutOfFuel => False
  end.
Proof.
  apply (controllers_on_settled all_fit (mkWorld (initDVtable ex_fresh) [] [])).
  apply initDVtable_settled.
  split; [cbn; nodup_names | ].
  intros k n H. each_node k n H; split; reflexivity.
Defined.

(** ** The link mutator in a running program *)





(** ** The two modes side by side *)

Section ModeFacts.

Variable payload_fits : table -> bool.


Lemma update_nodes_cons (node : node_name) (rest : list node_name)
  (stable : bool) (w : world) :
  update_nodes (node :: rest) stable w =
  match updateDV node w with
  | Ok r w1 =>
      if snd r then
        update_nodes rest false
          (mkWorld (w_graph w1) (w_stdin w1)
             ((w_out w1 ++ [PrintUpdated node (fst r)]) ++ [GuiUpdate node (fst r)]))
      else update_nodes rest stable w1
  | Raised e w1 => Raised e w1
  | Exited s w1 => Exited s w1
  | OutOfFuel => OutOfFuel
  end.
Proof.
  cbn [update_nodes]. unfold bind at 1.
  destruct (updateDV node w) as [r w1 | | | ]; try reflexivity.
  destruct (snd r); reflexivity.
Qed.








End ModeFacts.




(** ** More on the link mutator *)










(** ** [getNodeOrder] *)

Lemma list_index_spec (x : node_name) (l : list node_name) :
  match list_index x l with
  | Some i => nth_error l i = Some x /\ ~ In x (firstn i l)
  | None => ~ In x l
  end.
Proof.
  induction l as [| y l IH]; cbn; [auto | ].
  destruct (String.eqb_spec y x) as [E | E].
  - subst y. split; [reflexivity | intros []].
  - destruct (list_index x l) as [i | ]; cbn.
    + destruct IH as [Hn Hf]. split; [exact Hn | ].
      intros [F | F]; [contradiction | exact (Hf F)].
    + intros [F | F]; [contradiction | exact (IH F)].
Qed.

(** X12: [getNodeOrder] numbers the nodes from 1 in the order of the keys.
    It returns [None] exactly for a name that is no key; a number it
    returns lies between 1 and the number of nodes and is the position of
    the name among the keys; and two names with the same number are the
    same name. *)
Theorem getNodeOrder_position :
  forall (g : graph) (k : node_name),
    (getNodeOrder g k = None <-> ~ In k (graph_keys g)) /\
    (forall i, getNodeOrder g k = Some i ->
       1 <= i <= List.length g /\ nth_error (graph_keys g) (i - 1) = Some k) /\
    (forall k' i, getNodeOrder g k = Some i -> getNodeOrder g k' = Some i ->
       k = k').
Proof.
  intros g k. unfold getNodeOrder.
  assert (Hpos : forall x i,
            match list_index x (graph_keys g) with
            | Some j => Some (j + 1)
            | None => None
            end = Some i ->
            1 <= i /\ nth_error (graph_keys g) (i - 1) = Some x).
  { intros x i. pose proof (list_index_spec x (graph_keys g)) as H.
    destruct (list_index x (graph_keys g)) as [j | ]; [ | discriminate].
    intros [= <-]. destruct H as [H _].
    replace (j + 1 - 1) with j by lia. split; [lia | exact H]. }
  split; [ | split].
  - pose proof (list_index_spec k (graph_keys g)) as H.
    destruct (list_index k (graph_keys g)) as [j | ].
    + split; [discriminate | ]. intros F. exfalso. apply F.
      destruct H as [H _]. exact (nth_error_In _ _ H).
    + split; [intros _; exact H | reflexivity].
  - intros i Hi. destruct (Hpos k i Hi) as [H1 Hn]. split; [ | exact Hn].
    split; [exact H1 | ].
    assert (Hlt : i - 1 < List.length (graph_keys g)).
    { apply nth_error_Some. congruence. }
    unfold graph_keys in Hlt. rewrite length_map in Hlt. lia.
  - intros k' i Hk Hk'.
    destruct (Hpos k i Hk) as [_ H]. destruct (Hpos k' i Hk') as [_ H'].
    congruence.
Qed.


(** ** The loader *)

Example parse_input_worked_example :
  parse_input ex_float (Some ex_lines) =
    inr (mkLoading ex_fresh [("1", 10%Z); ("2", 15%Z); ("3", 25%Z)] 35%Z).
Proof. reflexivity. Qed.

Lemma graph_get_app (k nm : node_name) (n : Node) (g : graph) :
  graph_get k (g ++ [(nm, n)]) =
  match graph_get k g with
  | Some x => Some x
  | None => if nm =? k then Some n else None
  end.
Proof.
  induction g as [| [k0 n0] g IH]; cbn; [reflexivity | ].
  destruct (k0 =? k); [reflexivity | exact IH].
Qed.

Lemma graph_keys_app (nm : node_name) (n : Node) (g : graph) :
  graph_keys (g ++ [(nm, n)]) = graph_keys g ++ [nm].
Proof. unfold graph_keys. rewrite map_app. reflexivity. Qed.

Lemma graph_mem_false (k : node_name) (g : graph) :
  graph_mem k g = false -> graph_get k g = None /\ ~ In k (graph_keys g).
Proof.
  intros M. split.
  - unfold graph_mem in M. destruct (graph_get k g); [discriminate | reflexivity].
  - intros Hin. apply graph_mem_in_keys in Hin. congruence.
Qed.

(** *** A new node *)

Lemma ensure_node_keys (nm : node_name) (step : Z) (st : loading) :
  In nm (graph_keys (ld_graph (ensure_node nm step st))) /\
  forall k, In k (graph_keys (ld_graph st)) ->
            In k (graph_keys (ld_graph (ensure_node nm step st))).
Proof.
  unfold ensure_node. destruct (graph_mem nm (ld_graph st)) eqn:M; cbn.
  - split; [apply graph_mem_in_keys; exact M | auto].
  - rewrite graph_keys_app. split; [apply in_or_app; right; left; reflexivity | ].
    intros k Hk. apply in_or_app. left. exact Hk.
Qed.

Lemma ensure_node_inv (nm : node_name) (step : Z) (st : loading) :
  (0 < step)%Z -> loader_inv st -> loader_inv (ensure_node nm step st).
Proof.
  intros Hstep Hinv. unfold ensure_node.
  destruct (graph_mem nm (ld_graph st)) eqn:M; [exact Hinv | ].
  destruct (graph_mem_false _ _ M) as [Hnone Hnotin].
  destruct Hinv as [[ND Hempty] [Hnamed [Hmirror [Hfst [Hbound [NDp Hten]]]]]].
  assert (Hget : forall k n,
            graph_get k (ld_graph st ++ [(nm, new_node nm)]) = Some n ->
            graph_get k (ld_graph st) = Some n \/ (k = nm /\ n = new_node nm)).
  { intros k n. rewrite graph_get_app.
    destruct (graph_get k (ld_graph st)) as [x | ]; [intros [= ->]; left; reflexivity | ].
    destruct (String.eqb_spec nm k) as [E | E]; [ | discriminate].
    intros [= <-]. right. split; [symmetry; exact E | reflexivity]. }
  unfold loader_inv, loaded, edges_named, ports_given; cbn [ld_graph ld_ports ld_port].
  split; [split | split; [ | split; [ | split; [ | split; [ | split]]]]].
  - rewrite graph_keys_app. apply NoDup_app; [exact ND | repeat constructor; intros [] | ].
    intros a Ha [<- | []]. exact (Hnotin Ha).
  - intros k n H. destruct (Hget k n H) as [Hold | [_ ->]];
      [exact (Hempty k n Hold) | split; reflexivity].
  - intros k n H. rewrite graph_keys_app.
    destruct (Hget k n H) as [Hold | [-> ->]].
    + split; [exact (proj1 (Hnamed k n Hold)) | ].
      intros e He. destruct (proj2 (Hnamed k n Hold) e He) as [Hsrc Hdst].
      split; [exact Hsrc | apply in_or_app; left; exact Hdst].
    + split; [reflexivity | intros e []].
  - assert (L : forall a b,
              links (ld_graph st ++ [(nm, new_node nm)]) a b = links (ld_graph st) a b).
    { intros a b. unfold links. rewrite graph_get_app.
      destruct (graph_get a (ld_graph st)); [reflexivity | ].
      destruct (nm =? a); reflexivity. }
    intros a b. rewrite !L. apply Hmirror.
  - rewrite graph_keys_app, map_app, Hfst. reflexivity.
  - intros p H. rewrite map_app in H. apply in_app_or in H.
    destruct H as [H | [<- | []]]; cbn; [pose proof (Hbound p H); lia | lia].
  - rewrite map_app. apply NoDup_app; [exact NDp | repeat constructor; intros [] | ].
    intros a Ha [<- | []]. pose proof (Hbound _ Ha). cbn in *. lia.
  - lia.
Qed.

(** *** A new edge *)

Lemma addEdge_eq (s d : node_name) (w : cost) (g : graph) :
  edges_named g ->
  In s (graph_keys g) -> In d (graph_keys g) ->
  addEdge s d w g = graph_update s (push_edge (mkEdge s d w)) g.
Proof.
  intros Hnamed Hs Hd.
  apply graph_get_in_keys in Hs. destruct Hs as [sn Hs].
  apply graph_get_in_keys in Hd. destruct Hd as [dn Hd].
  unfold addEdge. rewrite Hd.
  apply (graph_update_at s _ _ g sn Hs).
  rewrite (proj1 (Hnamed s sn Hs)), (proj1 (Hnamed d dn Hd)). reflexivity.
Qed.

Lemma push_edge_links (s d : node_name) (w : cost) (g : graph) (a b : node_name) :
  In s (graph_keys g) ->
  links (graph_update s (push_edge (mkEdge s d w)) g) a b =
  links g a b ++ (if (s =? a) && (d =? b) then [w] else []).
Proof.
  intros Hs. unfold links. rewrite graph_get_update.
  destruct (String.eqb_spec s a) as [E | E]; cbn [andb].
  - subst a. apply graph_get_in_keys in Hs. destruct Hs as [sn Hs]. rewrite Hs.
    cbn. rewrite filter_app, map_app. cbn.
    destruct (d =? b); reflexivity.
  - rewrite app_nil_r. reflexivity.
Qed.

Lemma push_edge_inv (s d : node_name) (w : cost) (g : graph) :
  In s (graph_keys g) -> In d (graph_keys g) ->
  loaded g -> edges_named g ->
  loaded (graph_update s (push_edge (mkEdge s d w)) g) /\
  edges_named (graph_update s (push_edge (mkEdge s d w)) g).
Proof.
  intros Hs Hd [ND Hempty] Hnamed.
  assert (Hget : forall k n,
            graph_get k (graph_update s (push_edge (mkEdge s d w)) g) = Some n ->
            exists n0, graph_get k g = Some n0 /\
                       (n = n0 \/ (k = s /\ n = push_edge (mkEdge s d w) n0))).
  { intros k n. rewrite graph_get_update.
    destruct (String.eqb_spec s k) as [E | E].
    - destruct (graph_get k g) as [n0 | ]; cbn; [ | discriminate].
      intros [= <-]. exists n0. split; [reflexivity | right; auto].
    - intros H. exists n. split; [exact H | left; reflexivity]. }
  split; [split | ].
  - rewrite graph_keys_update. exact ND.
  - intros k n H. destruct (Hget k n H) as [n0 [H0 [-> | [_ ->]]]];
      exact (Hempty k n0 H0).
  - intros k n H. rewrite graph_keys_update.
    destruct (Hget k n H) as [n0 [H0 [-> | [-> ->]]]]; [exact (Hnamed k n0 H0) | ].
    split; [exact (proj1 (Hnamed s n0 H0)) | ].
    intros e He. cbn in He. apply in_app_or in He. destruct He as [He | [<- | []]].
    + exact (proj2 (Hnamed s n0 H0) e He).
    + split; [reflexivity | exact Hd].
Qed.

Lemma load_line_graph (s d : node_name) (w : cost) (st : loading) :
  loader_inv st ->
  let st2 := ensure_node d 10 (ensure_node s 5 st) in
  loader_inv st2 /\
  In s (graph_keys (ld_graph st2)) /\ In d (graph_keys (ld_graph st2)) /\
  ld_graph (load_line s d w st) =
    graph_update d (push_edge (mkEdge d s w))
      (graph_update s (push_edge (mkEdge s d w)) (ld_graph st2)) /\
  ld_ports (load_line s d w st) = ld_ports st2 /\
  ld_port (load_line s d w st) = ld_port st2.
Proof.
  intros Hinv st2.
  assert (Hinv2 : loader_inv st2).
  { apply ensure_node_inv; [lia | ]. apply ensure_node_inv; [lia | exact Hinv]. }
  assert (Hs : In s (graph_keys (ld_graph st2))).
  { apply (proj2 (ensure_node_keys d 10 (ensure_node s 5 st))).
    exact (proj1 (ensure_node_keys s 5 st)). }
  assert (Hd : In d (graph_keys (ld_graph st2)))
    by exact (proj1 (ensure_node_keys d 10 (ensure_node s 5 st))).
  split; [exact Hinv2 | ]. split; [exact Hs | ]. split; [exact Hd | ].
  split; [ | split; reflexivity].
  unfold load_line. fold st2. cbn [ld_graph].
  destruct Hinv2 as [Hl [Hn _]].
  rewrite (addEdge_eq s d w _ Hn Hs Hd).
  destruct (push_edge_inv s d w _ Hs Hd Hl Hn) as [_ Hn1].
  apply addEdge_eq; [exact Hn1 | | ]; rewrite graph_keys_update; assumption.
Qed.

Lemma load_line_inv (s d : node_name) (w : cost) (st : loading) :
  loader_inv st -> loader_inv (load_line s d w st).
Proof.
  intros Hinv.
  destruct (load_line_graph s d w st Hinv) as [Hinv2 [Hs [Hd [Eg [Ep En]]]]].
  set (st2 := ensure_node d 10 (ensure_node s 5 st)) in *.
  destruct Hinv2 as [Hl [Hn [Hm Hp]]].
  destruct (push_edge_inv s d w _ Hs Hd Hl Hn) as [Hl1 Hn1].
  assert (Hs1 : In s (graph_keys (graph_update s (push_edge (mkEdge s d w)) (ld_graph st2))))
    by (rewrite graph_keys_update; exact Hs).
  assert (Hd1 : In d (graph_keys (graph_update s (push_edge (mkEdge s d w)) (ld_graph st2))))
    by (rewrite graph_keys_update; exact Hd).
  destruct (push_edge_inv d s w _ Hd1 Hs1 Hl1 Hn1) as [Hl2 Hn2].
  unfold loader_inv, ports_given. rewrite Eg, Ep, En.
  split; [exact Hl2 | ]. split; [exact Hn2 | ]. split.
  - intros a b. rewrite !(push_edge_links d s w _ _ _ Hd1), !(push_edge_links s d w _ _ _ Hs).
    rewrite (Hm a b), <- !app_assoc. f_equal.
    rewrite (String.eqb_sym d a), (String.eqb_sym s b), (String.eqb_sym s a),
            (String.eqb_sym d b).
    destruct (a =? s), (b =? d), (a =? d), (b =? s); reflexivity.
  - rewrite !graph_keys_update. exact Hp.
Qed.

Lemma loader_inv_start : loader_inv (mkLoading [] [] 10).
Proof.
  repeat split; cbn; try constructor; try discriminate; try contradiction; lia.
Qed.

Section LoaderFacts.

Variable float_of : string -> option cost.

Lemma load_lines_inv (lines : list string) (st st' : loading) :
  loader_inv st -> load_lines float_of lines st = inr st' -> loader_inv st'.
Proof.
  revert st. induction lines as [| line rest IH]; intros st Hinv; cbn.
  - intros [= <-]. exact Hinv.
  - destruct (strip line =? "End of Input"); [intros [= <-]; exact Hinv | ].
    destruct (split (strip line)) as [| s [| d [| x [| y more]]]]; try (apply IH; exact Hinv).
    destruct (float_of x) as [w | ]; [ | discriminate].
    apply IH. apply load_line_inv. exact Hinv.
Qed.

Lemma parse_input_inv (file : option (list string)) (st : loading) :
  parse_input float_of file = inr st -> loader_inv st.
Proof.
  destruct file as [lines | ]; [ | discriminate]. cbn.
  apply load_lines_inv. exact loader_inv_start.
Qed.

(** The cost that [calculate_cost] finds is the first weight among the
    links. *)
Lemma calculate_cost_links (g : graph) (a b : node_name) :
  calculate_cost g a b =
  if a =? b then cost_zero else hd cost_inf (links g a b).
Proof.
  unfold calculate_cost, links. destruct (a =? b); [reflexivity | ].
  destruct (graph_get a g) as [n | ]; [ | reflexivity].
  induction (edges n) as [| e es IH]; cbn; [reflexivity | ].
  destruct (destination e =? b); [reflexivity | exact IH].
Qed.

Lemma entry_init_rows (a b : node_name) (c : node_name -> cost)
  (ks : list node_name) :
  In b ks -> entry (map (fun d => (a, d, c d)) ks) a b = Some (c b).
Proof.
  unfold entry. induction ks as [| k ks IH]; [contradiction | ].
  cbn. rewrite name_eqb_refl. cbn.
  destruct (String.eqb_spec k b) as [E | E]; [subst k; reflexivity | ].
  intros [H | H]; [contradiction | exact (IH H)].
Qed.





(** X13: whenever [parse_input] returns, the graph is in the state the
    engine starts from: no key twice, every table and every mailbox empty;
    every node carries its key as its name, and every edge in a node's list
    starts at that node and ends at a node of the graph; and every node was
    given a port of its own, from 10 upwards. *)
Theorem parse_input_graph (file : option (list string)) (st : loading) :
  parse_input float_of file = inr st ->
  loaded (ld_graph st) /\ edges_named (ld_graph st) /\ ports_given st.
Proof.
  intros H. destruct (parse_input_inv file st H) as [Hl [Hn [_ Hp]]].
  auto.
Qed.

(** X14: the links that [parse_input] builds are bidirectional: the edges
    from [a] to [b] and from [b] to [a] carry the same weights in the same
    order, so [calculate_cost] is symmetric, and after [initDVtable] the
    graph is in the state of a running program with the entry of [a] for [b]
    and the entry of [b] for [a] at that one cost. *)
Theorem parse_input_bidirectional (file : option (list string))
  (st : loading) :
  parse_input float_of file = inr st ->
  let g := ld_graph st in
  links_mirrored g /\
  (forall a b, calculate_cost g a b = calculate_cost g b a) /\
  settled (initDVtable g) /\
  forall a b, In a (graph_keys g) -> In b (graph_keys g) ->
    exists na nb,
      graph_get a (initDVtable g) = Some na /\
      graph_get b (initDVtable g) = Some nb /\
      entry (initTable na) a b = Some (calculate_cost g a b) /\
      entry (initTable nb) b a = Some (calculate_cost g a b).
Proof.
  intros H g. destruct (parse_input_inv file st H) as [Hl [_ [Hm _]]].
  fold g in Hl, Hm.
  assert (Sym : forall a b, calculate_cost g a b = calculate_cost g b a).
  { intros a b. rewrite !calculate_cost_links, (Hm a b), (String.eqb_sym b a).
    reflexivity. }
  split; [exact Hm | ]. split; [exact Sym | ].
  split; [apply initDVtable_settled; exact Hl | ].
  intros a b Ha Hb. destruct Hl as [ND Hempty].
  pose proof Ha as Ha'. pose proof Hb as Hb'.
  apply graph_get_in_keys in Ha'. destruct Ha' as [na Hna].
  apply graph_get_in_keys in Hb'. destruct Hb' as [nb Hnb].
  eexists. eexists.
  split; [exact (initDVtable_get g a na ND Hna) | ].
  split; [exact (initDVtable_get g b nb ND Hnb) | ].
  cbn [initTable set_initTable].
  rewrite (proj1 (Hempty a na Hna)), (proj1 (Hempty b nb Hnb)). cbn [app].
  rewrite (entry_init_rows a b (calculate_cost g a) _ Hb).
  rewrite (entry_init_rows b a (calculate_cost g b) _ Ha).
  rewrite (Sym b a). split; reflexivity.
Qed.



End LoaderFacts.

Lemma parse_input_graph_witness :
  loaded ex_fresh /\ edges_named ex_fresh /\
  ports_given (mkLoading ex_fresh [("1", 10%Z); ("2", 15%Z); ("3", 25%Z)] 35%Z).
Proof.
  apply (parse_input_graph ex_float (Some ex_lines)
           (mkLoading ex_fresh [("1", 10%Z); ("2", 15%Z); ("3", 25%Z)] 35%Z)).
  reflexivity.
Defined.

Lemma parse_input_bidirectional_witness :
  links_mirrored ex_fresh /\
  (forall a b, calculate_cost ex_fresh a b = calculate_cost ex_fresh b a) /\
  settled (initDVtable ex_fresh) /\
  forall a b, In a (graph_keys ex_fresh) -> In b (graph_keys ex_fresh) ->
    exists na nb,
      graph_get a (initDVtable ex_fresh) = Some na /\
      graph_get b (initDVtable ex_fresh) = Some nb /\
      entry (initTable na) a b = Some (calculate_cost ex_fresh a b) /\
      entry (initTable nb) b a = Some (calculate_cost ex_fresh a b).
Proof.
  apply (parse_input_bidirectional ex_float (Some ex_lines)
           (mkLoading ex_fresh [("1", 10%Z); ("2", 15%Z); ("3", 25%Z)] 35%Z)).
  reflexivity.
Defined.



(** ** Costs over a whole run *)

Lemma costs_below_refl (g : graph) : costs_below g g.
Proof.
  split; [reflexivity | ]. intros k n H. exists n.
  split; [exact H | apply dict_below_refl].
Qed.

Lemma costs_below_trans (g1 g2 g3 : graph) :
  costs_below g1 g2 -> costs_below g2 g3 -> costs_below g1 g3.
Proof.
  intros [K12 H12] [K23 H23]. split; [congruence | ].
  intros k n3 H3. destruct (H23 k n3 H3) as [n2 [H2 B2]].
  destruct (H12 k n2 H2) as [n1 [H1 B1]].
  exists n1. split; [exact H1 | exact (dict_below_trans _ _ _ B1 B2)].
Qed.

Lemma ends_below_trans {A : Type} (g1 g : graph) (o : outcome A) :
  costs_below g1 g -> ends_below g1 o -> ends_below g o.
Proof.
  intros B. destruct o as [a w' | e w' | s w' | ]; cbn; try contradiction;
    intros H; exact (costs_below_trans _ _ _ H B).
Qed.

Lemma updateDV_below (node_id : node_name) (w : world) :
  match updateDV node_id w with
  | Ok _ w' => costs_below (w_graph w') (w_graph w)
  | Raised _ w' => w' = w
  | Exited _ _ => False
  | OutOfFuel => False
  end.
Proof.
  rewrite updateDV_eq.
  destruct (graph_get node_id (w_graph w)) as [node | ] eqn:Hnode; [ | reflexivity].
  destruct (relax_tables _ _ _) as [st | e] eqn:E; [ | reflexivity].
  destruct (relax_tables_below _ _ _ _ E) as [B N]. cbn [fst] in B, N.
  cbn [w_graph with_graph]. split; [apply graph_keys_update | ].
  intros k n Hk. rewrite graph_get_update, Hk.
  destruct (String.eqb_spec node_id k) as [F | F].
  - subst k. rewrite Hnode in Hk. injection Hk as <-. cbn [option_map].
    eexists. split; [reflexivity | ]. cbn [initTable set_initTable].
    rewrite dict_of_table_of_dict by (apply N, dict_of_table_nodup).
    exact B.
  - exists n. split; [reflexivity | apply dict_below_refl].
Qed.

Lemma update_nodes_below (nodes : list node_name) (stable : bool) (w : world) :
  ends_below (w_graph w) (update_nodes nodes stable w).
Proof.
  revert stable w. induction nodes as [| node rest IH]; intros stable w.
  - cbn. apply costs_below_refl.
  - rewrite update_nodes_cons. pose proof (updateDV_below node w) as H.
    destruct (updateDV node w) as [r w1 | e w1 | s w1 | ]; try contradiction.
    + destruct (snd r).
      * apply (ends_below_trans (w_graph w1)); [exact H | ].
        apply (IH false (mkWorld (w_graph w1) (w_stdin w1) _)).
      * apply (ends_below_trans (w_graph w1)); [exact H | apply IH].
    + subst w1. cbn. apply costs_below_refl.
Qed.

Section MonotoneFacts.

Variable payload_fits : table -> bool.

Lemma sendDVtoNeighbor_below (g : graph) :
  NoDup (graph_keys g) -> costs_below (sendDVtoNeighbor payload_fits g) g.
Proof.
  intros ND. destruct (sendDVtoNeighbor_spec payload_fits g ND) as [[K _] [_ G]].
  split; [exact K | ]. intros k n H. eexists. split; [exact (G k n H) | ].
  cbn [initTable set_updatedInit]. apply dict_below_refl.
Qed.

Lemma run_cycle_below (w : world) :
  NoDup (graph_keys (w_graph w)) ->
  ends_below (w_graph w) (run_cycle payload_fits w).
Proof.
  intros ND. rewrite run_cycle_eq.
  apply (ends_below_trans (sendDVtoNeighbor payload_fits (w_graph w)));
    [apply sendDVtoNeighbor_below; exact ND | ].
  apply (update_nodes_below _ true
           (with_graph (sendDVtoNeighbor payload_fits (w_graph w)) w)).
Qed.

Lemma nobreaks_loop_below (fuel max_cycles cycles : nat) (w : world) :
  NoDup (graph_keys (w_graph w)) -> 1 <= fuel -> max_cycles - cycles <= fuel ->
  ends_below (w_graph w)
    (nobreaks_loop payload_fits fuel max_cycles false cycles w).
Proof.
  revert cycles w. induction fuel as [| fuel IH]; intros cycles w ND H1 Hfuel;
    [lia | ].
  rewrite nobreaks_loop_step. pose proof (run_cycle_below w ND) as H.
  destruct (run_cycle payload_fits w) as [[|] w1 | e w1 | s w1 | ];
    try exact H.
  destruct (Nat.leb max_cycles (S cycles)) eqn:E; [exact H | ].
  apply Nat.leb_gt in E. cbn in H.
  apply (ends_below_trans (w_graph w1)); [exact H | ].
  apply IH; [rewrite (proj1 H); exact ND | lia | lia].
Qed.

Lemma breaks_loop_below (fuel max_cycles cycles : nat) (w : world) :
  NoDup (graph_keys (w_graph w)) -> max_cycles - cycles <= fuel ->
  ends_below (w_graph w)
    (breaks_loop payload_fits fuel max_cycles false cycles w).
Proof.
  revert cycles w. induction fuel as [| fuel IH]; intros cycles w ND Hfuel.
  - cbn [breaks_loop negb andb].
    assert (E : Nat.ltb cycles max_cycles = false) by (apply Nat.ltb_ge; lia).
    rewrite E. cbn. apply costs_below_refl.
  - destruct (Nat.ltb cycles max_cycles) eqn:E.
    + apply Nat.ltb_lt in E. rewrite (breaks_loop_step _ _ _ _ _ E).
      pose proof (run_cycle_below w ND) as H.
      destruct (run_cycle payload_fits w) as [[|] w1 | e w1 | s w1 | ];
        try exact H.
      cbn zeta. cbn in H.
      destruct (w_stdin w1) as [| decision rest]; [exact H | ].
      destruct (upper decision =? "Y").
      * destruct (Nat.leb max_cycles (S cycles)) eqn:F; [exact H | ].
        apply Nat.leb_gt in F.
        apply (ends_below_trans (w_graph w1)); [exact H | ].
        apply (IH (S cycles) (mkWorld (w_graph w1) rest _));
          [cbn [w_graph]; rewrite (proj1 H); exact ND | lia].
      * destruct rest; exact H.
    + cbn [breaks_loop negb andb]. rewrite E. cbn. apply costs_below_refl.
Qed.

(** X17: a run never raises a cost.  Whatever way [DVAlgorithmNoBreaks] or
    [DVAlgorithmBreaks] ends (returning, raising, or ending the process),
    the graph it leaves has the same keys, and every node holds for every
    destination it had a cost for a cost that is the same or strictly
    below: no destination is dropped and no cost goes up, whatever the
    fabric drops and whatever the mailboxes hold. *)
Theorem runs_never_raise_a_cost :
  forall (w : world),
    NoDup (graph_keys (w_graph w)) ->
    ends_below (w_graph w) (DVAlgorithmNoBreaks payload_fits w) /\
    ends_below (w_graph w) (DVAlgorithmBreaks payload_fits w).
Proof.
  intros w ND. split.
  - unfold DVAlgorithmNoBreaks, bind, get_graph.
    set (m := List.length (w_graph w) * 50).
    pose proof (nobreaks_loop_below (S m) m 0 w ND) as H.
    destruct (nobreaks_loop payload_fits (S m) m false 0 w) as [c w1 | e w1 | s w1 | ];
      cbn; apply H; lia.
  - unfold DVAlgorithmBreaks, bind, get_graph.
    set (m := List.length (w_graph w) * 50).
    pose proof (breaks_loop_below m m 0 w ND) as H.
    destruct (breaks_loop payload_fits m m false 0 w) as [c w1 | e w1 | s w1 | ];
      cbn; apply H; lia.
Qed.

End MonotoneFacts.

Lemma runs_never_raise_a_cost_witness :
  ends_below ex_init (DVAlgorithmNoBreaks all_fit (mkWorld ex_init [] [])) /\
  ends_below ex_init (DVAlgorithmBreaks all_fit (mkWorld ex_init ["y"; "n"] [])).
Proof.
  split.
  - apply (proj1 (runs_never_raise_a_cost all_fit (mkWorld ex_init [] [])
                    ltac:(cbn; nodup_names))).
  - apply (proj2 (runs_never_raise_a_cost all_fit (mkWorld ex_init ["y"; "n"] [])
                    ltac:(cbn; nodup_names))).
Defined.


(** ** Initialisation of a graph that holds tables *)

(** X18: [initDVtable] appends and never clears.  On any graph without a
    repeated key it leaves the keys as they are and gives every node its old
    table followed by one row per key, in key order, at the cost that
    [calculate_cost] finds; so a second call does not leave the tables of
    the first but appends the same rows once more. *)
Theorem initDVtable_appends :
  forall (g : graph),
    NoDup (graph_keys g) ->
    graph_keys (initDVtable g) = graph_keys g /\
    forall k n, graph_get k g = Some n ->
      let rows := map (fun d => (k, d, calculate_cost g k d)) (graph_keys g) in
      graph_get k (initDVtable g) =
        Some (set_initTable (initTable n ++ rows) n) /\
      graph_get k (initDVtable (initDVtable g)) =
        Some (set_initTable (initTable n ++ rows ++ rows) n).
Proof.
  intros g ND. pose proof (initDVtable_same_edges g ND) as S.
  destruct S as [K E].
  split; [exact K | ]. intros k n H rows.
  pose proof (initDVtable_get g k n ND H) as H1. fold rows in H1.
  split; [exact H1 | ].
  assert (ND1 : NoDup (graph_keys (initDVtable g))) by (rewrite K; exact ND).
  rewrite (initDVtable_get (initDVtable g) k _ ND1 H1).
  cbn [initTable set_initTable name edges updatedInit]. rewrite K.
  assert (R : map (fun d => (k, d, calculate_cost (initDVtable g) k d)) (graph_keys g)
              = rows).
  { unfold rows. apply map_ext. intros d.
    rewrite (calculate_cost_same_edges (initDVtable g) g k d (conj K E)). reflexivity. }
  rewrite R, <- app_assoc. reflexivity.
Qed.

Lemma initDVtable_appends_witness :
  graph_keys (initDVtable ex_init) = graph_keys ex_init /\
  forall k n, graph_get k ex_init = Some n ->
    let rows := map (fun d => (k, d, calculate_cost ex_init k d)) (graph_keys ex_init) in
    graph_get k (initDVtable ex_init) =
      Some (set_initTable (initTable n ++ rows) n) /\
    graph_get k (initDVtable (initDVtable ex_init)) =
      Some (set_initTable (initTable n ++ rows ++ rows) n).
Proof.
  apply (initDVtable_appends ex_init). cbn. nodup_names.
Defined.
